(** * Piecewise modular cipher (Assignment-2.1.py)

    A shallow embedding of [encrypt_character],
    [decrypt_character_with_ambiguity], the decoding loop of [decrypt_file]
    and the conditions computed by [check_reversibility_for_text], together
    with the properties the specification states about them.

    Python integers are unbounded, so shifts are in [Z]; Python's [%] with a
    positive divisor is the floored remainder, which is [Z.modulo].  A
    character is a one-element [str]; comparing two of them compares their
    code points, so a character is modelled by its code point. *)

From Stdlib Require Import ZArith Lia List Bool Ascii Sorted.
Import ListNotations.
Local Open Scope Z_scope.

(** ** Characters *)

(** A character, as its Unicode code point. *)
Definition char : Type := Z.

(** [ord] and [chr] convert between a character and its code point.  Python's
    [chr] raises outside [0, 0x10FFFF]; the source only calls it on
    [x % 26 + LOW_A] and [x % 26 + UP_A], which lie in [65, 122]
    (see [chr_argument_in_range]). *)
Definition ord (c : char) : Z := c.
Definition chr (n : Z) : char := n.

(** A character literal of the source, such as ['a']. *)
Definition lit (a : ascii) : char := Z.of_N (N_of_ascii a).

Definition LOW_A : Z := ord (lit "a").
Definition UP_A : Z := ord (lit "A").

(** [a <= b] and [a == b] on one-character strings. *)
Definition char_le (a b : char) : bool := a <=? b.
Definition char_eq (a b : char) : bool := a =? b.

(** ** The forward transform *)

Definition encrypt_character (ch : char) (s1 s2 : Z) : char :=
  if char_le (lit "a") ch && char_le ch (lit "z") then
    if char_le ch (lit "m") then
      let shift := s1 * s2 in
      chr ((ord ch - LOW_A + shift) mod 26 + LOW_A)
    else
      let shift := - (s1 + s2) in
      chr ((ord ch - LOW_A + shift) mod 26 + LOW_A)
  else if char_le (lit "A") ch && char_le ch (lit "Z") then
    if char_le ch (lit "M") then
      let shift := - s1 in
      chr ((ord ch - UP_A + shift) mod 26 + UP_A)
    else
      let shift := s2 * s2 in
      chr ((ord ch - UP_A + shift) mod 26 + UP_A)
  else ch.

(** ** The ambiguity-aware inverse *)

Definition decrypt_character_with_ambiguity (ch : char) (s1 s2 : Z)
  : char * bool :=
  if char_le (lit "a") ch && char_le ch (lit "z") then
    let idx := ord ch - LOW_A in
    let cand_first := (idx - (s1 * s2)) mod 26 in
    let cand_second := (idx + (s1 + s2)) mod 26 in
    let c1 := chr (cand_first + LOW_A) in
    let c2 := chr (cand_second + LOW_A) in
    let ok1 := char_le c1 (lit "m") && char_eq (encrypt_character c1 s1 s2) ch in
    let ok2 := char_le (lit "n") c2 && char_eq (encrypt_character c2 s1 s2) ch in
    if ok1 && negb ok2 then (c1, false)
    else if ok2 && negb ok1 then (c2, false)
    else if ok1 && ok2 then (c1, true)
    else (ch, true)
  else if char_le (lit "A") ch && char_le ch (lit "Z") then
    let idx := ord ch - UP_A in
    let cand_first := (idx + s1) mod 26 in
    let cand_second := (idx - (s2 * s2)) mod 26 in
    let c1 := chr (cand_first + UP_A) in
    let c2 := chr (cand_second + UP_A) in
    let ok1 := char_le c1 (lit "M") && char_eq (encrypt_character c1 s1 s2) ch in
    let ok2 := char_le (lit "N") c2 && char_eq (encrypt_character c2 s1 s2) ch in
    if ok1 && negb ok2 then (c1, false)
    else if ok2 && negb ok1 then (c2, false)
    else if ok1 && ok2 then (c1, true)
    else (ch, true)
  else (ch, false).

(** The local variables [c1], [c2], [ok1] and [ok2] of
    [decrypt_character_with_ambiguity], as functions of its arguments: the
    lowercase branch computes them with [LOW_A] and the shifts [s1 * s2] and
    [s1 + s2], the uppercase branch with [UP_A] and the shifts [s1] and
    [s2 * s2].  They are not bound for any other character. *)
Definition is_lower (ch : char) : bool :=
  char_le (lit "a") ch && char_le ch (lit "z").
Definition is_upper (ch : char) : bool :=
  char_le (lit "A") ch && char_le ch (lit "Z").
Definition is_letter (ch : char) : bool := is_lower ch || is_upper ch.

Definition cand1 (ch : char) (s1 s2 : Z) : char :=
  if is_lower ch then chr ((ord ch - LOW_A - (s1 * s2)) mod 26 + LOW_A)
  else chr ((ord ch - UP_A + s1) mod 26 + UP_A).

Definition cand2 (ch : char) (s1 s2 : Z) : char :=
  if is_lower ch then chr ((ord ch - LOW_A + (s1 + s2)) mod 26 + LOW_A)
  else chr ((ord ch - UP_A - (s2 * s2)) mod 26 + UP_A).

Definition ok1 (ch : char) (s1 s2 : Z) : bool :=
  let c1 := cand1 ch s1 s2 in
  if is_lower ch
  then char_le c1 (lit "m") && char_eq (encrypt_character c1 s1 s2) ch
  else char_le c1 (lit "M") && char_eq (encrypt_character c1 s1 s2) ch.

Definition ok2 (ch : char) (s1 s2 : Z) : bool :=
  let c2 := cand2 ch s1 s2 in
  if is_lower ch
  then char_le (lit "n") c2 && char_eq (encrypt_character c2 s1 s2) ch
  else char_le (lit "N") c2 && char_eq (encrypt_character c2 s1 s2) ch.

(** The four halves of the alphabet. *)
Definition lower_first (c : char) : bool :=
  char_le (lit "a") c && char_le c (lit "m").
Definition lower_second (c : char) : bool :=
  char_le (lit "n") c && char_le c (lit "z").
Definition upper_first (c : char) : bool :=
  char_le (lit "A") c && char_le c (lit "M").
Definition upper_second (c : char) : bool :=
  char_le (lit "N") c && char_le c (lit "Z").

(** ** Streams *)

Section StreamModel.

(** [str.isalpha] on one character, Unicode's test for a letter.  It is a
    built-in of the language, true on more than a-z and A-Z; nothing proved
    here depends on its value. *)
Variable isalpha : char -> bool.

(** The text written by [encrypt_file], for the text read. *)
Definition encrypt_file (text : list char) (s1 s2 : Z) : list char :=
  map (fun ch => encrypt_character ch s1 s2) text.

(** The two lists the loop of [decrypt_file] appends to. *)
Record decrypt_state : Type := {
  out_chars : list char;
  ambiguous_positions : list nat
}.

(** One iteration of [for i, ch in enumerate(cipher)]. *)
Definition decrypt_step (s1 s2 : Z) (st : decrypt_state) (i : nat) (ch : char)
  : decrypt_state :=
  let '(dec, amb) := decrypt_character_with_ambiguity ch s1 s2 in
  {| out_chars := out_chars st ++ [dec];
     ambiguous_positions :=
       if amb && isalpha ch then ambiguous_positions st ++ [i]
       else ambiguous_positions st |}.

Fixpoint decrypt_loop (s1 s2 : Z) (i : nat) (cipher : list char)
  (st : decrypt_state) : decrypt_state :=
  match cipher with
  | [] => st
  | ch :: rest => decrypt_loop s1 s2 (S i) rest (decrypt_step s1 s2 st i ch)
  end.

(** [decrypt_file] on the text read: the text written and the list
    returned. *)
Definition decrypt_file (cipher : list char) (s1 s2 : Z)
  : list char * list nat :=
  let st := decrypt_loop s1 s2 0 cipher
              {| out_chars := []; ambiguous_positions := [] |} in
  (out_chars st, ambiguous_positions st).

(** The positions the loop appends from index [i] on, by recursion on the
    text instead of by accumulation (see [decrypt_loop_positions]). *)
Fixpoint flagged (s1 s2 : Z) (i : nat) (cipher : list char) : list nat :=
  match cipher with
  | [] => []
  | ch :: rest =>
      (if snd (decrypt_character_with_ambiguity ch s1 s2) && isalpha ch
       then [i] else []) ++ flagged s1 s2 (S i) rest
  end.

End StreamModel.

(** ** The reversibility advisory *)

(** What [check_reversibility_for_text] prints: the case composition of the
    text and, for one-case text, the value of [cond]. *)
Inductive advisory : Type :=
| LowercaseOnly (cond : bool)
| UppercaseOnly (cond : bool)
| MixedCase
| NoLetters.

Definition check_reversibility_for_text (text : list char) (s1 s2 : Z)
  : advisory :=
  let has_lower :=
    existsb (fun ch => char_le (lit "a") ch && char_le ch (lit "z")) text in
  let has_upper :=
    existsb (fun ch => char_le (lit "A") ch && char_le ch (lit "Z")) text in
  if has_lower && negb has_upper then
    let cond := (s1 * s2 + s1 + s2) mod 26 =? 0 in
    LowercaseOnly cond
  else if has_upper && negb has_lower then
    let cond := (s1 + (s2 * s2)) mod 26 =? 0 in
    UppercaseOnly cond
  else if has_lower && has_upper then MixedCase
  else NoLetters.

(** ** Verification and the whole run *)

(** [raw == dec] on two texts. *)
Fixpoint text_eq (raw dec : list char) : bool :=
  match raw, dec with
  | [], [] => true
  | a :: raw', b :: dec' => char_eq a b && text_eq raw' dec'
  | _, _ => false
  end.

(** A reported difference [(pos, raw, decrypted)]. *)
Definition mismatch : Type := nat * char * char.

(** The loop of [verify_files] over [enumerate(zip(raw, dec))], from index
    [i] on, with the list built so far; the loop is left by [break] once
    the list has [show_diffs] entries. *)
Fixpoint find_mismatches (show_diffs : Z) (i : nat) (raw dec : list char)
  (mismatches : list mismatch) : list mismatch :=
  match raw, dec with
  | a :: raw', b :: dec' =>
      if negb (char_eq a b) then
        let mismatches := mismatches ++ [(i, a, b)] in
        if Z.of_nat (length mismatches) >=? show_diffs then mismatches
        else find_mismatches show_diffs (S i) raw' dec' mismatches
      else find_mismatches show_diffs (S i) raw' dec' mismatches
  | _, _ => mismatches
  end.

(** What [verify_files] prints after a failed comparison: whether the note
    on differing lengths is printed, and the differences listed (none are
    listed when the list is empty). *)
Record verify_report : Type := {
  length_differs : bool;
  mismatches : list mismatch
}.

(** [verify_files] on the two texts read: the value returned and, after a
    failure, what is printed. *)
Definition verify_files (raw dec : list char) (show_diffs : Z)
  : bool * option verify_report :=
  if text_eq raw dec then (true, None)
  else
    let mismatches := find_mismatches show_diffs 0 raw dec [] in
    (false,
     Some {| length_differs := negb (length raw =? length dec)%nat;
             mismatches := mismatches |}).

Section MainModel.

(** [str.isalpha], as for [decrypt_file]. *)
Variable isalpha : char -> bool.

(** What one run of [main] produces. *)
Record run : Type := {
  advice : advisory;
  encrypted_text : list char;
  decrypted_text : list char;
  ambiguous : list nat;
  preview : list nat;
  more : option nat;
  verified : bool * option verify_report
}.

(** [main] once both shifts are read, on the text of [raw_text.txt]: steps 0
    to 3, each file read back as the step before wrote it, and
    [verify_files] called with its default [show_diffs = 5]. *)
Definition main (sample : list char) (s1 s2 : Z) : run :=
  let advice := check_reversibility_for_text sample s1 s2 in
  let encrypted := encrypt_file sample s1 s2 in
  let '(decrypted, ambiguous_positions) := decrypt_file isalpha encrypted s1 s2 in
  {| advice := advice;
     encrypted_text := encrypted;
     decrypted_text := decrypted;
     ambiguous := ambiguous_positions;
     preview := firstn 10 ambiguous_positions;
     more := if (length ambiguous_positions <=? 10)%nat then None
             else Some (length ambiguous_positions - 10)%nat;
     verified := verify_files sample decrypted 5 |}.

End MainModel.

(** ** The fractal drawer (Assignment-2.3.py) *)

Section FractalModel.

(** Python's floats, and the true division [a / b] of two numbers with [b]
    not zero, which always gives a float.  Both are built into the
    language; what is proved of the drawing holds whatever the rounding. *)
Variable float : Type.

(** A number: an [int] or a [float]. *)
Inductive number : Type :=
| Int (z : Z)
| Float (x : float).

Variable truediv : number -> number -> float.

(** The calls received by the turtle. *)
Inductive command : Type :=
| turtle_forward (distance : number)
| turtle_left (angle : number)
| turtle_right (angle : number).

(** [fractal_side], returning the calls it makes in order.  The recursion
    only ends at [level == 0]; [fuel] bounds its depth, and [None] is a
    recursion still running at that depth. *)
Fixpoint fractal_side (fuel : nat) (size : number) (level : Z)
  : option (list command) :=
  match fuel with
  | O => None
  | S fuel =>
      if level =? 0 then Some [turtle_forward size]
      else
        let step := Float (truediv size (Int 3)) in
        match fractal_side fuel step (level - 1) with
        | None => None
        | Some t1 =>
            match fractal_side fuel step (level - 1) with
            | None => None
            | Some t2 =>
                match fractal_side fuel step (level - 1) with
                | None => None
                | Some t3 =>
                    match fractal_side fuel step (level - 1) with
                    | None => None
                    | Some t4 =>
                        Some (t1 ++ [turtle_left (Int 60)] ++
                              t2 ++ [turtle_right (Int 120)] ++
                              t3 ++ [turtle_left (Int 60)] ++ t4)
                    end
                end
            end
        end
  end.

(** How a call of [draw_shape] ends. *)
Inductive outcome : Type :=
| Drawn (calls : list command)
| ZeroDivisionError
| Unfinished.

(** The loop [for _ in range(n_sides)] of [draw_shape], [count] rounds
    left. *)
Fixpoint draw_sides (fuel : nat) (count : nat) (side_len : number)
  (level : Z) (turn : number) : option (list command) :=
  match count with
  | O => Some []
  | S count =>
      match fractal_side fuel side_len level with
      | None => None
      | Some side =>
          match draw_sides fuel count side_len level turn with
          | None => None
          | Some rest => Some (side ++ [turtle_left turn] ++ rest)
          end
      end
  end.

(** [draw_shape]: [360 / n_sides] raises when [n_sides] is zero, and
    [range(n_sides)] is empty when it is negative. *)
Definition draw_shape (fuel : nat) (n_sides : Z) (side_len : number)
  (level : Z) : outcome :=
  if n_sides =? 0 then ZeroDivisionError
  else
    let turn := Float (truediv (Int 360) (Int n_sides)) in
    match draw_sides fuel (Z.to_nat n_sides) side_len level turn with
    | None => Unfinished
    | Some calls => Drawn calls
    end.

(** The length of a segment after [n] subdivisions. *)
Fixpoint subdivide (n : nat) (size : number) : number :=
  match n with
  | O => size
  | S n => subdivide n (Float (truediv size (Int 3)))
  end.

(** The calls of [fractal_side] at depth [n], by recursion on the depth. *)
Fixpoint koch (n : nat) (size : number) : list command :=
  match n with
  | O => [turtle_forward size]
  | S n =>
      let step := Float (truediv size (Int 3)) in
      koch n step ++ [turtle_left (Int 60)] ++
      koch n step ++ [turtle_right (Int 120)] ++
      koch n step ++ [turtle_left (Int 60)] ++ koch n step
  end.

(** The distances of the forward calls, in order. *)
Fixpoint forwards (calls : list command) : list number :=
  match calls with
  | [] => []
  | turtle_forward d :: rest => d :: forwards rest
  | _ :: rest => forwards rest
  end.

(** The turns, in order: degrees to the left, negative to the right, of
    every turn by a whole number of degrees; [None] for a turn by a
    float. *)
Fixpoint turns (calls : list command) : list (option Z) :=
  match calls with
  | [] => []
  | turtle_forward _ :: rest => turns rest
  | turtle_left (Int a) :: rest => Some a :: turns rest
  | turtle_right (Int a) :: rest => Some (- a) :: turns rest
  | _ :: rest => None :: turns rest
  end.

(** The sum of the turns by whole degrees. *)
Fixpoint net_turn (ts : list (option Z)) : Z :=
  match ts with
  | [] => 0
  | Some a :: rest => a + net_turn rest
  | None :: rest => net_turn rest
  end.

End FractalModel.

Arguments Int {float} z.
Arguments Float {float} x.
Arguments turtle_forward {float} distance.
Arguments turtle_left {float} angle.
Arguments turtle_right {float} angle.
Arguments Drawn {float} calls.
Arguments ZeroDivisionError {float}.
Arguments Unfinished {float}.
Arguments fractal_side {float} truediv fuel size level.
Arguments draw_sides {float} truediv fuel count side_len level turn.
Arguments draw_shape {float} truediv fuel n_sides side_len level.
Arguments subdivide {float} truediv n size.
Arguments koch {float} truediv n size.
Arguments forwards {float} calls.
Arguments turns {float} calls.

(** ** Notions used in the statements *)

(** 0-based letter indices, [ord(ch) - LOW_A] and [ord(ch) - UP_A]. *)
Definition lower_idx (c : char) : Z := ord c - LOW_A.
Definition upper_idx (c : char) : Z := ord c - UP_A.

(** [first_half] and [second_half]: the 13-letter halves of either case. *)
Definition first_half (c : char) : bool := lower_first c || upper_first c.
Definition second_half (c : char) : bool := lower_second c || upper_second c.

(** Two letters of one case. *)
Definition same_case (c d : char) : bool :=
  (is_lower c && is_lower d) || (is_upper c && is_upper d).

(** The decision table of the inverse, on the values of its locals. *)
Definition decision (ch c1 c2 : char) (o1 o2 : bool) : char * bool :=
  match o1, o2 with
  | true, false => (c1, false)
  | false, true => (c2, false)
  | true, true => (c1, true)
  | false, false => (ch, true)
  end.

(** A collision at [ch]: two distinct originals of the case of [ch], one of
    each half, that both encrypt to [ch]. *)
Definition collision (ch : char) (s1 s2 : Z) : Prop :=
  exists o1 o2 : char,
    first_half o1 = true /\ second_half o2 = true /\
    same_case ch o1 = true /\ same_case ch o2 = true /\
    o1 <> o2 /\
    encrypt_character o1 s1 s2 = ch /\ encrypt_character o2 s1 s2 = ch.

(** When the lowercase condition fails, this a-m letter collides with an n-z
    letter. *)
Definition lower_colliding (s1 s2 : Z) : char :=
  let k := (s1 * s2 + s1 + s2) mod 26 in
  if k <? 13 then 97 + (13 - k) else 97.

(** When the uppercase condition fails, this A-M letter collides with an N-Z
    letter. *)
Definition upper_colliding (s1 s2 : Z) : char :=
  let k := (s1 + s2 * s2) mod 26 in
  if 13 <? k then 65 + (k - 13) else 65.

(** The residues mod 26, and the check that among them only (0, 0) meets
    both reversibility conditions. *)
Definition residues : list Z := map Z.of_nat (seq 0 26).

Definition only_zero_solves (a b : Z) : bool :=
  implb (((a * b + a + b) mod 26 =? 0) && ((a + b * b) mod 26 =? 0))
        ((a =? 0) && (b =? 0)).

(** ** Proof automation *)

Ltac literals :=
  repeat match goal with
  | |- context [lit ?a] =>
      let v := eval vm_compute in (lit a) in change (lit a) with v in *
  | H : context [lit ?a] |- _ =>
      let v := eval vm_compute in (lit a) in change (lit a) with v in *
  end.

Ltac unfold_cipher :=
  cbv beta delta [encrypt_character decrypt_character_with_ambiguity
    cand1 cand2 ok1 ok2 is_letter is_lower is_upper
    lower_first lower_second upper_first upper_second
    LOW_A UP_A ord chr char_le char_eq char] in *;
  literals; cbv zeta in *.

(** Case analysis on every comparison left in the goal; a branch whose
    bounds are contradictory is closed at once. *)
Ltac split_test a b lem :=
  destruct (lem a b); try (exfalso; lia).

Ltac split_tests :=
  repeat match goal with
  | H : context [?a <=? ?b] |- _ => split_test a b Z.leb_spec
  | H : context [?a =? ?b] |- _ => split_test a b Z.eqb_spec
  | |- context [?a <=? ?b] => split_test a b Z.leb_spec
  | |- context [?a =? ?b] => split_test a b Z.eqb_spec
  end.

Ltac mod_lia := Z.div_mod_to_equations; lia.

(** Unfold the cipher, split on every test and close the arithmetic. *)
Ltac crunch :=
  intros; unfold_cipher; split_tests; cbn [andb orb negb fst snd] in *;
  solve [discriminate | congruence | lia | mod_lia].

(** ** The forward transform, branch by branch *)

Lemma encrypt_lower_first c s1 s2 :
  lower_first c = true ->
  encrypt_character c s1 s2 = (c - 97 + s1 * s2) mod 26 + 97.
Proof. crunch. Qed.

Lemma encrypt_lower_second c s1 s2 :
  lower_second c = true ->
  encrypt_character c s1 s2 = (c - 97 - (s1 + s2)) mod 26 + 97.
Proof. crunch. Qed.

Lemma encrypt_upper_first c s1 s2 :
  upper_first c = true ->
  encrypt_character c s1 s2 = (c - 65 - s1) mod 26 + 65.
Proof. crunch. Qed.

Lemma encrypt_upper_second c s1 s2 :
  upper_second c = true ->
  encrypt_character c s1 s2 = (c - 65 + s2 * s2) mod 26 + 65.
Proof. crunch. Qed.

Lemma encrypt_other c s1 s2 :
  is_letter c = false -> encrypt_character c s1 s2 = c.
Proof. crunch. Qed.

(** [chr] is only applied to [x % 26 + LOW_A] and [x % 26 + UP_A]: they are
    valid code points, so [chr] never raises. *)
Lemma chr_argument_in_range (x : Z) :
  0 <= x mod 26 + LOW_A <= 1114111 /\ 0 <= x mod 26 + UP_A <= 1114111.
Proof. crunch. Qed.

(** The transform keeps a letter in its case. *)
Lemma encrypt_is_lower c s1 s2 :
  is_lower (encrypt_character c s1 s2) = is_lower c.
Proof. crunch. Qed.

Lemma encrypt_is_upper c s1 s2 :
  is_upper (encrypt_character c s1 s2) = is_upper c.
Proof. crunch. Qed.

(** ** The candidates of the inverse *)

(** Both candidates have the case of the input. *)
Lemma cand1_case ch s1 s2 :
  is_letter ch = true ->
  is_lower (cand1 ch s1 s2) = is_lower ch /\
  is_upper (cand1 ch s1 s2) = is_upper ch.
Proof. crunch. Qed.

Lemma cand2_case ch s1 s2 :
  is_letter ch = true ->
  is_lower (cand2 ch s1 s2) = is_lower ch /\
  is_upper (cand2 ch s1 s2) = is_upper ch.
Proof. crunch. Qed.

Lemma decrypt_decision ch s1 s2 :
  is_letter ch = true ->
  decrypt_character_with_ambiguity ch s1 s2 =
  decision ch (cand1 ch s1 s2) (cand2 ch s1 s2) (ok1 ch s1 s2) (ok2 ch s1 s2).
Proof.
  intros H. unfold decision, decrypt_character_with_ambiguity, ok1, ok2, cand1, cand2.
  fold (is_lower ch). fold (is_upper ch).
  unfold is_letter in H.
  destruct (is_lower ch); cbv zeta.
  - match goal with |- context [char_le ?a ?b && char_eq ?c ?d] =>
      destruct (char_le a b && char_eq c d) end;
    match goal with |- context [char_le ?a ?b && char_eq ?c ?d] =>
      destruct (char_le a b && char_eq c d) end; reflexivity.
  - simpl in H. rewrite H.
    match goal with |- context [char_le ?a ?b && char_eq ?c ?d] =>
      destruct (char_le a b && char_eq c d) end;
    match goal with |- context [char_le ?a ?b && char_eq ?c ?d] =>
      destruct (char_le a b && char_eq c d) end; reflexivity.
Qed.

Lemma decrypt_other ch s1 s2 :
  is_letter ch = false -> decrypt_character_with_ambiguity ch s1 s2 = (ch, false).
Proof.
  unfold is_letter. intros H. apply orb_false_elim in H as [Hl Hu].
  unfold decrypt_character_with_ambiguity.
  fold (is_lower ch). fold (is_upper ch). rewrite Hl, Hu. reflexivity.
Qed.

(** The verification of a candidate is decided by its half alone. *)
Lemma ok1_first_half ch s1 s2 :
  is_letter ch = true -> ok1 ch s1 s2 = first_half (cand1 ch s1 s2).
Proof. unfold first_half. crunch. Qed.

Lemma ok2_second_half ch s1 s2 :
  is_letter ch = true -> ok2 ch s1 s2 = second_half (cand2 ch s1 s2).
Proof. unfold second_half. crunch. Qed.

(** A candidate in its half re-encrypts to the input. *)
Lemma cand1_reencrypts ch s1 s2 :
  is_letter ch = true -> first_half (cand1 ch s1 s2) = true ->
  encrypt_character (cand1 ch s1 s2) s1 s2 = ch.
Proof. unfold first_half. crunch. Qed.

Lemma cand2_reencrypts ch s1 s2 :
  is_letter ch = true -> second_half (cand2 ch s1 s2) = true ->
  encrypt_character (cand2 ch s1 s2) s1 s2 = ch.
Proof. unfold second_half. crunch. Qed.

(** The candidates are the only possible originals of each half. *)
Lemma first_half_original o ch s1 s2 :
  first_half o = true -> encrypt_character o s1 s2 = ch -> o = cand1 ch s1 s2.
Proof. unfold first_half. crunch. Qed.

Lemma second_half_original o ch s1 s2 :
  second_half o = true -> encrypt_character o s1 s2 = ch -> o = cand2 ch s1 s2.
Proof. unfold second_half. crunch. Qed.

Lemma same_case_cand1 ch s1 s2 :
  is_letter ch = true -> same_case ch (cand1 ch s1 s2) = true.
Proof.
  intros H. unfold same_case. destruct (cand1_case ch s1 s2 H) as [-> ->].
  unfold is_letter in H. destruct (is_lower ch), (is_upper ch); auto.
Qed.

Lemma same_case_cand2 ch s1 s2 :
  is_letter ch = true -> same_case ch (cand2 ch s1 s2) = true.
Proof.
  intros H. unfold same_case. destruct (cand2_case ch s1 s2 H) as [-> ->].
  unfold is_letter in H. destruct (is_lower ch), (is_upper ch); auto.
Qed.

(** A letter lies in exactly one half, and the halves are disjoint. *)
Lemma halves_partition c :
  is_letter c = true -> second_half c = negb (first_half c).
Proof. unfold first_half, second_half. crunch. Qed.

Lemma halves_distinct o1 o2 :
  first_half o1 = true -> second_half o2 = true -> o1 <> o2.
Proof. unfold first_half, second_half. crunch. Qed.

Lemma half_is_letter c :
  first_half c = true \/ second_half c = true -> is_letter c = true.
Proof. unfold first_half, second_half. intros [H | H]; revert H; crunch. Qed.

Lemma encrypt_is_letter c s1 s2 :
  is_letter (encrypt_character c s1 s2) = is_letter c.
Proof. unfold is_letter. now rewrite encrypt_is_lower, encrypt_is_upper. Qed.

Lemma encrypt_same_case c s1 s2 :
  is_letter c = true -> same_case c (encrypt_character c s1 s2) = true.
Proof.
  unfold same_case, is_letter. rewrite encrypt_is_lower, encrypt_is_upper.
  destruct (is_lower c), (is_upper c); auto.
Qed.

(** With both shifts zero each candidate is the input itself. *)
Lemma cand_zero ch :
  is_letter ch = true -> cand1 ch 0 0 = ch /\ cand2 ch 0 0 = ch.
Proof. crunch. Qed.

(** ** The claims on single characters *)

(** C1. [encrypt_character] applies the rule table, all arithmetic mod 26 and
    the result mapped back into the letter range of the same case: a
    lowercase a-m gets index [(idx + s1*s2) mod 26], a lowercase n-z
    [(idx - (s1 + s2)) mod 26], an uppercase A-M [(idx - s1) mod 26], an
    uppercase N-Z [(idx + s2*s2) mod 26], and any other character is returned
    unchanged.  With shifts (3, 4), 'H' gives 'E', 'e' gives 'q' and 'l'
    gives 'x'. *)
Theorem encrypt_character_rule_table :
  (forall (c : char) (s1 s2 : Z),
      (lower_first c = true ->
       is_lower (encrypt_character c s1 s2) = true /\
       lower_idx (encrypt_character c s1 s2) = (lower_idx c + s1 * s2) mod 26) /\
      (lower_second c = true ->
       is_lower (encrypt_character c s1 s2) = true /\
       lower_idx (encrypt_character c s1 s2) = (lower_idx c - (s1 + s2)) mod 26) /\
      (upper_first c = true ->
       is_upper (encrypt_character c s1 s2) = true /\
       upper_idx (encrypt_character c s1 s2) = (upper_idx c - s1) mod 26) /\
      (upper_second c = true ->
       is_upper (encrypt_character c s1 s2) = true /\
       upper_idx (encrypt_character c s1 s2) = (upper_idx c + s2 * s2) mod 26) /\
      (is_letter c = false -> encrypt_character c s1 s2 = c)) /\
  encrypt_character (lit "H") 3 4 = lit "E" /\
  encrypt_character (lit "e") 3 4 = lit "q" /\
  encrypt_character (lit "l") 3 4 = lit "x".
Proof.
  split; [| repeat split; reflexivity].
  intros c s1 s2. unfold lower_idx, upper_idx, LOW_A, UP_A, ord. literals.
  split; [| split; [| split; [| split]]]; intros H; try split.
  - rewrite encrypt_is_lower. revert H. crunch.
  - rewrite (encrypt_lower_first _ _ _ H). lia.
  - rewrite encrypt_is_lower. revert H. crunch.
  - rewrite (encrypt_lower_second _ _ _ H). lia.
  - rewrite encrypt_is_upper. revert H. crunch.
  - rewrite (encrypt_upper_first _ _ _ H). lia.
  - rewrite encrypt_is_upper. revert H. crunch.
  - rewrite (encrypt_upper_second _ _ _ H). lia.
  - now apply encrypt_other.
Qed.

Lemma encrypt_character_rule_table_witness :
  lower_first (lit "e") = true /\
  lower_idx (encrypt_character (lit "e") 3 4) = (lower_idx (lit "e") + 3 * 4) mod 26 /\
  lower_second (lit "x") = true /\
  lower_idx (encrypt_character (lit "x") 3 4) = (lower_idx (lit "x") - (3 + 4)) mod 26 /\
  upper_first (lit "H") = true /\
  upper_idx (encrypt_character (lit "H") 3 4) = (upper_idx (lit "H") - 3) mod 26 /\
  upper_second (lit "W") = true /\
  upper_idx (encrypt_character (lit "W") 3 4) = (upper_idx (lit "W") + 4 * 4) mod 26 /\
  is_letter (lit ",") = false /\
  encrypt_character (lit ",") 3 4 = lit ",".
Proof.
  pose proof (proj1 encrypt_character_rule_table) as T.
  split; [reflexivity |]. split.
  { apply (proj1 (T (lit "e") 3 4)). reflexivity. }
  split; [reflexivity |]. split.
  { apply (proj1 (proj2 (T (lit "x") 3 4))). reflexivity. }
  split; [reflexivity |]. split.
  { apply (proj1 (proj2 (proj2 (T (lit "H") 3 4)))). reflexivity. }
  split; [reflexivity |]. split.
  { apply (proj1 (proj2 (proj2 (proj2 (T (lit "W") 3 4))))). reflexivity. }
  split; [reflexivity |].
  apply (proj2 (proj2 (proj2 (proj2 (T (lit ",") 3 4))))). reflexivity.
Defined.

(** C2. For an alphabetic [ch] the inverse computes the candidate [c1]
    inverting the first-half rule and [c2] inverting the second-half rule
    (any first-half original of [ch] is [c1], any second-half original is
    [c2], both of the case of [ch]), the outcomes [ok1] and [ok2] (the
    candidate lies in its assumed half and re-encrypts to [ch]), and returns
    by the decision table: only [ok1] gives [(c1, false)], only [ok2] gives
    [(c2, false)], both give [(c1, true)], neither gives [(ch, true)]. *)
Theorem decrypt_decision_table (ch : char) (s1 s2 : Z) :
  is_letter ch = true ->
  let c1 := cand1 ch s1 s2 in
  let c2 := cand2 ch s1 s2 in
  let o1 := ok1 ch s1 s2 in
  let o2 := ok2 ch s1 s2 in
  (same_case ch c1 = true /\
   forall o, first_half o = true -> encrypt_character o s1 s2 = ch -> o = c1) /\
  (same_case ch c2 = true /\
   forall o, second_half o = true -> encrypt_character o s1 s2 = ch -> o = c2) /\
  o1 = first_half c1 && char_eq (encrypt_character c1 s1 s2) ch /\
  o2 = second_half c2 && char_eq (encrypt_character c2 s1 s2) ch /\
  (o1 = true -> o2 = false ->
   decrypt_character_with_ambiguity ch s1 s2 = (c1, false)) /\
  (o2 = true -> o1 = false ->
   decrypt_character_with_ambiguity ch s1 s2 = (c2, false)) /\
  (o1 = true -> o2 = true ->
   decrypt_character_with_ambiguity ch s1 s2 = (c1, true)) /\
  (o1 = false -> o2 = false ->
   decrypt_character_with_ambiguity ch s1 s2 = (ch, true)).
Proof.
  intros L c1 c2 o1 o2.
  split; [split; [now apply same_case_cand1 | intros; now apply first_half_original] |].
  split; [split; [now apply same_case_cand2 | intros; now apply second_half_original] |].
  split.
  { subst o1 c1. rewrite (ok1_first_half _ _ _ L).
    destruct (first_half (cand1 ch s1 s2)) eqn:F; [| reflexivity].
    rewrite (cand1_reencrypts _ _ _ L F). unfold char_eq.
    now rewrite Z.eqb_refl. }
  split.
  { subst o2 c2. rewrite (ok2_second_half _ _ _ L).
    destruct (second_half (cand2 ch s1 s2)) eqn:F; [| reflexivity].
    rewrite (cand2_reencrypts _ _ _ L F). unfold char_eq.
    now rewrite Z.eqb_refl. }
  rewrite (decrypt_decision _ _ _ L). fold c1 c2 o1 o2.
  repeat split; intros -> ->; reflexivity.
Qed.

Lemma decrypt_decision_table_witness :
  decrypt_character_with_ambiguity (lit "t") 3 4 = (lit "h", false) /\
  decrypt_character_with_ambiguity (lit "g") 3 4 = (lit "n", false) /\
  decrypt_character_with_ambiguity (lit "q") 3 4 = (lit "e", true) /\
  decrypt_character_with_ambiguity (lit "a") 3 4 = (lit "a", true).
Proof.
  split; [| split; [| split]].
  - apply (decrypt_decision_table (lit "t") 3 4); reflexivity.
  - apply (decrypt_decision_table (lit "g") 3 4); reflexivity.
  - apply (decrypt_decision_table (lit "q") 3 4); reflexivity.
  - apply (decrypt_decision_table (lit "a") 3 4); reflexivity.
Defined.

(** C10. For an alphabetic [ch] the re-encryption test of each verification
    is redundant: [ok1] holds exactly when the first-half candidate lies in
    the first half of the case of [ch], [ok2] exactly when the second-half
    candidate lies in the second half, because a candidate that lies in its
    assumed half always re-encrypts to [ch]. *)
Theorem reencryption_check_redundant (ch : char) (s1 s2 : Z) :
  is_letter ch = true ->
  let c1 := cand1 ch s1 s2 in
  let c2 := cand2 ch s1 s2 in
  same_case ch c1 = true /\ same_case ch c2 = true /\
  (ok1 ch s1 s2 = true <-> first_half c1 = true) /\
  (ok2 ch s1 s2 = true <-> second_half c2 = true) /\
  (first_half c1 = true -> encrypt_character c1 s1 s2 = ch) /\
  (second_half c2 = true -> encrypt_character c2 s1 s2 = ch).
Proof.
  intros L c1 c2. subst c1 c2.
  rewrite (ok1_first_half _ _ _ L), (ok2_second_half _ _ _ L).
  repeat split; auto using same_case_cand1, same_case_cand2,
    cand1_reencrypts, cand2_reencrypts.
Qed.

Lemma reencryption_check_redundant_witness :
  is_letter (lit "q") = true /\
  (ok1 (lit "q") 3 4 = true <-> first_half (cand1 (lit "q") 3 4) = true) /\
  (ok2 (lit "q") 3 4 = true <-> second_half (cand2 (lit "q") 3 4) = true).
Proof.
  split; [reflexivity |].
  split; apply (reencryption_check_redundant (lit "q") 3 4); reflexivity.
Defined.

(** C8. The shift pair (0, 0) is a no-op: [encrypt_character] returns every
    character unchanged, and [decrypt_character_with_ambiguity] returns every
    character unchanged and never flags it ambiguous. *)
Theorem zero_shifts_noop (c : char) :
  encrypt_character c 0 0 = c /\
  decrypt_character_with_ambiguity c 0 0 = (c, false).
Proof.
  split; [crunch |].
  destruct (is_letter c) eqn:L; [| now apply decrypt_other].
  rewrite (decrypt_decision _ _ _ L).
  rewrite (ok1_first_half _ _ _ L), (ok2_second_half _ _ _ L).
  destruct (cand_zero c L) as [-> ->].
  rewrite (halves_partition c L).
  destruct (first_half c); reflexivity.
Qed.

(** ** Collisions and round trips *)

(** The half of a letter, read with its case. *)
Lemma second_half_lower d :
  second_half d = true -> is_lower d = true -> lower_second d = true.
Proof. unfold second_half. crunch. Qed.

Lemma second_half_upper d :
  second_half d = true -> is_upper d = true -> upper_second d = true.
Proof. unfold second_half. crunch. Qed.

Lemma first_half_lower d :
  first_half d = true -> is_lower d = true -> lower_first d = true.
Proof. unfold first_half. crunch. Qed.

Lemma first_half_upper d :
  first_half d = true -> is_upper d = true -> upper_first d = true.
Proof. unfold first_half. crunch. Qed.

Lemma same_case_lower c d :
  same_case c d = true -> is_lower c = true -> is_lower d = true.
Proof. unfold same_case. crunch. Qed.

Lemma same_case_upper c d :
  same_case c d = true -> is_upper c = true -> is_upper d = true.
Proof. unfold same_case. crunch. Qed.

(** A first-half original is recovered when the second-half candidate of its
    encryption is not a second-half letter, and symmetrically. *)
Lemma round_trip_first c s1 s2 :
  first_half c = true ->
  second_half (cand2 (encrypt_character c s1 s2) s1 s2) = false ->
  decrypt_character_with_ambiguity (encrypt_character c s1 s2) s1 s2 = (c, false).
Proof.
  intros F N.
  assert (L : is_letter (encrypt_character c s1 s2) = true).
  { rewrite encrypt_is_letter. apply half_is_letter. now left. }
  rewrite (decrypt_decision _ _ _ L).
  rewrite (ok1_first_half _ _ _ L), (ok2_second_half _ _ _ L), N.
  rewrite <- (first_half_original c _ s1 s2 F eq_refl), F. reflexivity.
Qed.

Lemma round_trip_second c s1 s2 :
  second_half c = true ->
  first_half (cand1 (encrypt_character c s1 s2) s1 s2) = false ->
  decrypt_character_with_ambiguity (encrypt_character c s1 s2) s1 s2 = (c, false).
Proof.
  intros F N.
  assert (L : is_letter (encrypt_character c s1 s2) = true).
  { rewrite encrypt_is_letter. apply half_is_letter. now right. }
  rewrite (decrypt_decision _ _ _ L).
  rewrite (ok1_first_half _ _ _ L), (ok2_second_half _ _ _ L), N.
  rewrite <- (second_half_original c _ s1 s2 F eq_refl), F. reflexivity.
Qed.

(** Both candidates verify: the encryption collides, and the inverse flags
    it. *)
Lemma round_trip_collision c s1 s2 :
  is_letter c = true ->
  first_half (cand1 (encrypt_character c s1 s2) s1 s2) = true ->
  second_half (cand2 (encrypt_character c s1 s2) s1 s2) = true ->
  snd (decrypt_character_with_ambiguity (encrypt_character c s1 s2) s1 s2) = true.
Proof.
  intros L F1 F2.
  assert (L' : is_letter (encrypt_character c s1 s2) = true)
    by now rewrite encrypt_is_letter.
  rewrite (decrypt_decision _ _ _ L').
  rewrite (ok1_first_half _ _ _ L'), (ok2_second_half _ _ _ L'), F1, F2.
  reflexivity.
Qed.

(** C3. Absence of a collision gives exact, unambiguous recovery: a lowercase
    a-m character [c] whose encryption no n-z character shares decodes to
    [(c, false)], and likewise an n-z character against a-m, an A-M character
    against N-Z and an N-Z character against A-M. *)
Theorem half_consistent_round_trip (c : char) (s1 s2 : Z) :
  (lower_first c = true ->
   (forall d, lower_second d = true ->
              encrypt_character d s1 s2 <> encrypt_character c s1 s2) ->
   decrypt_character_with_ambiguity (encrypt_character c s1 s2) s1 s2 = (c, false)) /\
  (lower_second c = true ->
   (forall d, lower_first d = true ->
              encrypt_character d s1 s2 <> encrypt_character c s1 s2) ->
   decrypt_character_with_ambiguity (encrypt_character c s1 s2) s1 s2 = (c, false)) /\
  (upper_first c = true ->
   (forall d, upper_second d = true ->
              encrypt_character d s1 s2 <> encrypt_character c s1 s2) ->
   decrypt_character_with_ambiguity (encrypt_character c s1 s2) s1 s2 = (c, false)) /\
  (upper_second c = true ->
   (forall d, upper_first d = true ->
              encrypt_character d s1 s2 <> encrypt_character c s1 s2) ->
   decrypt_character_with_ambiguity (encrypt_character c s1 s2) s1 s2 = (c, false)).
Proof.
  split; [| split; [| split]]; intros Hc Hd.
  - assert (F : first_half c = true) by (unfold first_half; now rewrite Hc).
    assert (Lo : is_lower (encrypt_character c s1 s2) = true)
      by (rewrite encrypt_is_lower; revert Hc; crunch).
    assert (L : is_letter (encrypt_character c s1 s2) = true)
      by (unfold is_letter; now rewrite Lo).
    apply round_trip_first; [exact F |].
    destruct (second_half _) eqn:S2; [exfalso | reflexivity].
    apply (Hd (cand2 (encrypt_character c s1 s2) s1 s2)).
    + apply second_half_lower; [exact S2 |].
      now rewrite (proj1 (cand2_case _ s1 s2 L)).
    + now apply cand2_reencrypts.
  - assert (F : second_half c = true) by (unfold second_half; now rewrite Hc).
    assert (Lo : is_lower (encrypt_character c s1 s2) = true)
      by (rewrite encrypt_is_lower; revert Hc; crunch).
    assert (L : is_letter (encrypt_character c s1 s2) = true)
      by (unfold is_letter; now rewrite Lo).
    apply round_trip_second; [exact F |].
    destruct (first_half _) eqn:S1; [exfalso | reflexivity].
    apply (Hd (cand1 (encrypt_character c s1 s2) s1 s2)).
    + apply first_half_lower; [exact S1 |].
      now rewrite (proj1 (cand1_case _ s1 s2 L)).
    + now apply cand1_reencrypts.
  - assert (F : first_half c = true)
      by (unfold first_half; rewrite Hc; apply orb_true_r).
    assert (Up : is_upper (encrypt_character c s1 s2) = true)
      by (rewrite encrypt_is_upper; revert Hc; crunch).
    assert (L : is_letter (encrypt_character c s1 s2) = true)
      by (unfold is_letter; rewrite Up; apply orb_true_r).
    apply round_trip_first; [exact F |].
    destruct (second_half _) eqn:S2; [exfalso | reflexivity].
    apply (Hd (cand2 (encrypt_character c s1 s2) s1 s2)).
    + apply second_half_upper; [exact S2 |].
      now rewrite (proj2 (cand2_case _ s1 s2 L)).
    + now apply cand2_reencrypts.
  - assert (F : second_half c = true)
      by (unfold second_half; rewrite Hc; apply orb_true_r).
    assert (Up : is_upper (encrypt_character c s1 s2) = true)
      by (rewrite encrypt_is_upper; revert Hc; crunch).
    assert (L : is_letter (encrypt_character c s1 s2) = true)
      by (unfold is_letter; rewrite Up; apply orb_true_r).
    apply round_trip_second; [exact F |].
    destruct (first_half _) eqn:S1; [exfalso | reflexivity].
    apply (Hd (cand1 (encrypt_character c s1 s2) s1 s2)).
    + apply first_half_upper; [exact S1 |].
      now rewrite (proj2 (cand1_case _ s1 s2 L)).
    + now apply cand1_reencrypts.
Qed.

Lemma half_consistent_round_trip_witness :
  decrypt_character_with_ambiguity (encrypt_character (lit "h") 3 4) 3 4
    = (lit "h", false) /\
  decrypt_character_with_ambiguity (encrypt_character (lit "n") 3 4) 3 4
    = (lit "n", false) /\
  decrypt_character_with_ambiguity (encrypt_character (lit "A") 3 4) 3 4
    = (lit "A", false) /\
  decrypt_character_with_ambiguity (encrypt_character (lit "Z") 3 4) 3 4
    = (lit "Z", false).
Proof.
  split; [| split; [| split]].
  - apply (proj1 (half_consistent_round_trip (lit "h") 3 4)).
    + reflexivity.
    + intros d Hd E. revert Hd E. crunch.
  - apply (proj1 (proj2 (half_consistent_round_trip (lit "n") 3 4))).
    + reflexivity.
    + intros d Hd E. revert Hd E. crunch.
  - apply (proj1 (proj2 (proj2 (half_consistent_round_trip (lit "A") 3 4)))).
    + reflexivity.
    + intros d Hd E. revert Hd E. crunch.
  - apply (proj2 (proj2 (proj2 (half_consistent_round_trip (lit "Z") 3 4)))).
    + reflexivity.
    + intros d Hd E. revert Hd E. crunch.
Defined.

(** ** Ambiguity *)

(** Some verification succeeds exactly on the image of the transform. *)
Lemma verified_iff_encrypted ch s1 s2 :
  is_letter ch = true ->
  (ok1 ch s1 s2 = true \/ ok2 ch s1 s2 = true) <->
  (exists c, encrypt_character c s1 s2 = ch).
Proof.
  intros L. rewrite (ok1_first_half _ _ _ L), (ok2_second_half _ _ _ L).
  split.
  - intros [F | F]; eauto using cand1_reencrypts, cand2_reencrypts.
  - intros [c E].
    assert (Lc : is_letter c = true)
      by (rewrite <- (encrypt_is_letter c s1 s2), E; exact L).
    pose proof (halves_partition c Lc) as P.
    destruct (first_half c) eqn:F.
    + left. now rewrite <- (first_half_original c ch s1 s2 F E).
    + right. now rewrite <- (second_half_original c ch s1 s2 P E).
Qed.

Lemma both_verified_collision ch s1 s2 :
  is_letter ch = true ->
  ok1 ch s1 s2 = true -> ok2 ch s1 s2 = true -> collision ch s1 s2.
Proof.
  intros L O1 O2.
  rewrite (ok1_first_half _ _ _ L) in O1.
  rewrite (ok2_second_half _ _ _ L) in O2.
  exists (cand1 ch s1 s2), (cand2 ch s1 s2).
  repeat split;
    auto using same_case_cand1, same_case_cand2, cand1_reencrypts,
      cand2_reencrypts, halves_distinct.
Qed.

(** The claim of C5 fails on the fallback branch: under (3, 4) nothing
    encrypts to 'a', yet 'a' is returned flagged ambiguous. *)
Lemma ambiguity_without_collision :
  is_letter (lit "a") = true /\
  decrypt_character_with_ambiguity (lit "a") 3 4 = (lit "a", true) /\
  ~ collision (lit "a") 3 4.
Proof.
  split; [reflexivity |]. split; [reflexivity |].
  intros (o1 & o2 & F1 & _ & _ & _ & _ & E1 & _).
  rewrite (first_half_original o1 _ 3 4 F1 E1) in F1. discriminate F1.
Qed.

(** C5, amended. When the inverse flags an alphabetic [ch] ambiguous, either
    two distinct originals, one of each half of the case of [ch], both
    encrypt to [ch], or nothing at all encrypts to [ch] and the inverse
    returned [ch] itself (the defensive fallback).  So the flag does signal a
    collision whenever [ch] is the encryption of some character. *)
Theorem ambiguity_soundness (ch d : char) (s1 s2 : Z) :
  is_letter ch = true ->
  decrypt_character_with_ambiguity ch s1 s2 = (d, true) ->
  (collision ch s1 s2 \/
   (d = ch /\ forall o, encrypt_character o s1 s2 <> ch)) /\
  ((exists c, encrypt_character c s1 s2 = ch) -> collision ch s1 s2).
Proof.
  intros L D.
  assert (A : collision ch s1 s2 \/
              (d = ch /\ forall o, encrypt_character o s1 s2 <> ch)).
  { pose proof (verified_iff_encrypted ch s1 s2 L) as V.
    pose proof (both_verified_collision ch s1 s2 L) as B.
    rewrite (decrypt_decision _ _ _ L) in D. unfold decision in D.
    destruct (ok1 ch s1 s2), (ok2 ch s1 s2); try discriminate D.
    - left. now apply B.
    - right. split; [congruence |].
      intros o E. destruct (proj2 V (ex_intro _ o E)); discriminate. }
  split; [exact A |].
  intros [c E]. destruct A as [A | [_ A]]; [exact A | now destruct (A c)].
Qed.

Lemma ambiguity_soundness_witness :
  collision (lit "q") 3 4 \/
  (lit "e" = lit "q" /\ forall o, encrypt_character o 3 4 <> lit "q").
Proof.
  apply (ambiguity_soundness (lit "q") (lit "e") 3 4); reflexivity.
Defined.

(** The claim of C6 fails for a letter outside the image of the transform:
    under (3, 4) neither candidate of 'a' verifies and the fallback branch is
    taken. *)
Lemma fallback_reached :
  is_letter (lit "a") = true /\
  ok1 (lit "a") 3 4 = false /\ ok2 (lit "a") 3 4 = false /\
  decrypt_character_with_ambiguity (lit "a") 3 4 = (lit "a", true).
Proof. repeat split; reflexivity. Qed.

(** C6, amended. For an alphabetic [ch] at least one of [ok1], [ok2]
    succeeds exactly when [ch] is the encryption of some character under the
    same shifts; on such input, and so on every character of an encrypted
    stream, the inverse never returns by the fallback branch: its result is
    one of the two candidates. *)
Theorem fallback_unreachable_on_encrypted (ch : char) (s1 s2 : Z) :
  is_letter ch = true ->
  ((ok1 ch s1 s2 = true \/ ok2 ch s1 s2 = true) <->
   (exists c, encrypt_character c s1 s2 = ch)) /\
  ((exists c, encrypt_character c s1 s2 = ch) ->
   decrypt_character_with_ambiguity ch s1 s2 =
     (cand1 ch s1 s2, ok2 ch s1 s2) /\ ok1 ch s1 s2 = true \/
   decrypt_character_with_ambiguity ch s1 s2 = (cand2 ch s1 s2, false) /\
     ok1 ch s1 s2 = false /\ ok2 ch s1 s2 = true).
Proof.
  intros L. pose proof (verified_iff_encrypted ch s1 s2 L) as V.
  split; [exact V |].
  intros E. apply V in E.
  rewrite (decrypt_decision _ _ _ L). unfold decision.
  destruct (ok1 ch s1 s2), (ok2 ch s1 s2); auto.
  destruct E; discriminate.
Qed.

Lemma fallback_unreachable_on_encrypted_witness :
  is_letter (lit "q") = true /\
  ((ok1 (lit "q") 3 4 = true \/ ok2 (lit "q") 3 4 = true) <->
   (exists c, encrypt_character c 3 4 = lit "q")).
Proof.
  split; [reflexivity |].
  apply (fallback_unreachable_on_encrypted (lit "q") 3 4). reflexivity.
Defined.

(** Under the lowercase condition both lowercase halves are shifted alike,
    so the wrong candidate never lies in its half. *)
Lemma lower_cond_round_trip c s1 s2 :
  (s1 * s2 + s1 + s2) mod 26 = 0 -> is_lower c = true ->
  decrypt_character_with_ambiguity (encrypt_character c s1 s2) s1 s2 = (c, false).
Proof.
  intros C L.
  destruct (lower_first c) eqn:F.
  - apply round_trip_first; [unfold first_half; now rewrite F |].
    rewrite (encrypt_lower_first _ _ _ F).
    unfold second_half. revert C L F. crunch.
  - apply round_trip_second.
    + unfold second_half. revert L F. crunch.
    + assert (F' : lower_second c = true) by (revert L F; crunch).
      rewrite (encrypt_lower_second _ _ _ F').
      unfold first_half. revert C L F. crunch.
Qed.

Lemma upper_cond_round_trip c s1 s2 :
  (s1 + s2 * s2) mod 26 = 0 -> is_upper c = true ->
  decrypt_character_with_ambiguity (encrypt_character c s1 s2) s1 s2 = (c, false).
Proof.
  intros C L.
  destruct (upper_first c) eqn:F.
  - apply round_trip_first; [unfold first_half; rewrite F; apply orb_true_r |].
    rewrite (encrypt_upper_first _ _ _ F).
    unfold second_half. revert C L F. crunch.
  - apply round_trip_second.
    + unfold second_half. revert L F. crunch.
    + assert (F' : upper_second c = true) by (revert L F; crunch).
      rewrite (encrypt_upper_second _ _ _ F').
      unfold first_half. revert C L F. crunch.
Qed.

Lemma lower_colliding_flagged s1 s2 :
  (s1 * s2 + s1 + s2) mod 26 <> 0 ->
  is_lower (lower_colliding s1 s2) = true /\
  snd (decrypt_character_with_ambiguity
         (encrypt_character (lower_colliding s1 s2) s1 s2) s1 s2) = true.
Proof.
  intros C.
  assert (F : lower_first (lower_colliding s1 s2) = true).
  { unfold lower_colliding. revert C. cbv zeta.
    destruct (Z.ltb_spec ((s1 * s2 + s1 + s2) mod 26) 13); crunch. }
  assert (Lo : is_lower (lower_colliding s1 s2) = true) by (revert F; crunch).
  split; [exact Lo |].
  apply round_trip_collision.
  - unfold is_letter. now rewrite Lo.
  - rewrite <- (first_half_original (lower_colliding s1 s2) _ s1 s2); auto;
      unfold first_half; now rewrite F.
  - rewrite (encrypt_lower_first _ _ _ F).
    unfold second_half, lower_colliding. revert C. cbv zeta.
    destruct (Z.ltb_spec ((s1 * s2 + s1 + s2) mod 26) 13); crunch.
Qed.

Lemma upper_colliding_flagged s1 s2 :
  (s1 + s2 * s2) mod 26 <> 0 ->
  is_upper (upper_colliding s1 s2) = true /\
  snd (decrypt_character_with_ambiguity
         (encrypt_character (upper_colliding s1 s2) s1 s2) s1 s2) = true.
Proof.
  intros C.
  assert (F : upper_first (upper_colliding s1 s2) = true).
  { unfold upper_colliding. revert C. cbv zeta.
    destruct (Z.ltb_spec 13 ((s1 + s2 * s2) mod 26)); crunch. }
  assert (Up : is_upper (upper_colliding s1 s2) = true) by (revert F; crunch).
  split; [exact Up |].
  apply round_trip_collision.
  - unfold is_letter. rewrite Up. apply orb_true_r.
  - rewrite <- (first_half_original (upper_colliding s1 s2) _ s1 s2); auto;
      unfold first_half; rewrite F; apply orb_true_r.
  - rewrite (encrypt_upper_first _ _ _ F).
    unfold second_half, upper_colliding. revert C. cbv zeta.
    destruct (Z.ltb_spec 13 ((s1 + s2 * s2) mod 26)); crunch.
Qed.

Lemma lower_round_trip_iff s1 s2 :
  (forall c, is_lower c = true ->
     decrypt_character_with_ambiguity (encrypt_character c s1 s2) s1 s2
       = (c, false)) <->
  (s1 * s2 + s1 + s2) mod 26 = 0.
Proof.
  split; [| intros C c; now apply lower_cond_round_trip].
  intros H. destruct (Z.eq_dec ((s1 * s2 + s1 + s2) mod 26) 0) as [E | N]; auto.
  destruct (lower_colliding_flagged s1 s2 N) as [Lo A].
  rewrite (H _ Lo) in A. discriminate A.
Qed.

Lemma upper_round_trip_iff s1 s2 :
  (forall c, is_upper c = true ->
     decrypt_character_with_ambiguity (encrypt_character c s1 s2) s1 s2
       = (c, false)) <->
  (s1 + s2 * s2) mod 26 = 0.
Proof.
  split; [| intros C c; now apply upper_cond_round_trip].
  intros H. destruct (Z.eq_dec ((s1 + s2 * s2) mod 26) 0) as [E | N]; auto.
  destruct (upper_colliding_flagged s1 s2 N) as [Up A].
  rewrite (H _ Up) in A. discriminate A.
Qed.

(** C4. Every lowercase letter round-trips exactly and unambiguously if and
    only if [(s1*s2 + s1 + s2) mod 26 = 0], and every uppercase letter if and
    only if [(s1 + s2*s2) mod 26 = 0]; these are the conditions that
    [check_reversibility_for_text] reports for one-case text. *)
Theorem reversibility_conditions (s1 s2 : Z) :
  ((forall c, is_lower c = true ->
      decrypt_character_with_ambiguity (encrypt_character c s1 s2) s1 s2
        = (c, false)) <->
   (s1 * s2 + s1 + s2) mod 26 = 0) /\
  ((forall c, is_upper c = true ->
      decrypt_character_with_ambiguity (encrypt_character c s1 s2) s1 s2
        = (c, false)) <->
   (s1 + s2 * s2) mod 26 = 0) /\
  (forall text cond,
      check_reversibility_for_text text s1 s2 = LowercaseOnly cond ->
      cond = ((s1 * s2 + s1 + s2) mod 26 =? 0)) /\
  (forall text cond,
      check_reversibility_for_text text s1 s2 = UppercaseOnly cond ->
      cond = ((s1 + s2 * s2) mod 26 =? 0)).
Proof.
  split; [apply lower_round_trip_iff |].
  split; [apply upper_round_trip_iff |].
  unfold check_reversibility_for_text.
  split; intros text cond; cbv zeta;
    destruct (existsb _ text), (existsb _ text); cbn [andb negb];
    intros E; inversion E; reflexivity.
Qed.

Lemma reversibility_conditions_witness :
  (forall c, is_lower c = true ->
     decrypt_character_with_ambiguity (encrypt_character c 2 8) 2 8
       = (c, false)) /\
  (forall c, is_upper c = true ->
     decrypt_character_with_ambiguity (encrypt_character c 25 1) 25 1
       = (c, false)) /\
  ~ (forall c, is_lower c = true ->
       decrypt_character_with_ambiguity (encrypt_character c 3 4) 3 4
         = (c, false)).
Proof.
  split; [| split].
  - apply (proj1 (reversibility_conditions 2 8)). reflexivity.
  - apply (proj1 (proj2 (reversibility_conditions 25 1))). reflexivity.
  - intros H. apply (proj1 (reversibility_conditions 3 4)) in H.
    discriminate H.
Defined.

(** ** Both conditions at once *)

Lemma in_residues a : 0 <= a < 26 -> In a residues.
Proof.
  intros H. unfold residues. rewrite <- (Z2Nat.id a) by lia.
  apply in_map, in_seq. lia.
Qed.

Lemma residues_checked :
  forallb (fun a => forallb (only_zero_solves a) residues) residues = true.
Proof. vm_compute. reflexivity. Qed.

Lemma residues_only_zero a b :
  0 <= a < 26 -> 0 <= b < 26 ->
  (a * b + a + b) mod 26 = 0 -> (a + b * b) mod 26 = 0 -> a = 0 /\ b = 0.
Proof.
  intros Ha Hb E1 E2.
  pose proof residues_checked as R.
  rewrite forallb_forall in R. specialize (R a (in_residues a Ha)).
  rewrite forallb_forall in R. specialize (R b (in_residues b Hb)).
  unfold only_zero_solves in R. rewrite E1, E2 in R. cbn in R.
  apply andb_true_iff in R as [Ra Rb].
  split; now apply Z.eqb_eq.
Qed.

(** The conditions only depend on the shifts mod 26. *)
Lemma conditions_mod s1 s2 :
  (s1 * s2 + s1 + s2) mod 26 =
    ((s1 mod 26) * (s2 mod 26) + s1 mod 26 + s2 mod 26) mod 26 /\
  (s1 + s2 * s2) mod 26 =
    (s1 mod 26 + (s2 mod 26) * (s2 mod 26)) mod 26.
Proof.
  pose proof (Z.div_mod s1 26 ltac:(lia)) as D1.
  pose proof (Z.div_mod s2 26 ltac:(lia)) as D2.
  set (a := s1 mod 26) in *. set (b := s2 mod 26) in *.
  set (q1 := s1 / 26) in *. set (q2 := s2 / 26) in *.
  split.
  - replace (s1 * s2 + s1 + s2)
      with (a * b + a + b + (26 * q1 * q2 + q1 * b + a * q2 + q1 + q2) * 26)
      by (rewrite D1, D2; ring).
    apply Z_mod_plus_full.
  - replace (s1 + s2 * s2)
      with (a + b * b + (q1 + 26 * q2 * q2 + 2 * q2 * b) * 26)
      by (rewrite D1, D2; ring).
    apply Z_mod_plus_full.
Qed.

Lemma both_conditions_zero s1 s2 :
  (s1 * s2 + s1 + s2) mod 26 = 0 -> (s1 + s2 * s2) mod 26 = 0 ->
  s1 mod 26 = 0 /\ s2 mod 26 = 0.
Proof.
  destruct (conditions_mod s1 s2) as [-> ->].
  apply residues_only_zero; apply Z.mod_pos_bound; lia.
Qed.

(** Shifts that are multiples of 26 leave every character unchanged. *)
Lemma multiples_of_26_noop s1 s2 c :
  s1 mod 26 = 0 -> s2 mod 26 = 0 -> encrypt_character c s1 s2 = c.
Proof.
  intros M1 M2.
  pose proof (Z.div_mod s1 26 ltac:(lia)) as D1.
  pose proof (Z.div_mod s2 26 ltac:(lia)) as D2.
  rewrite M1 in D1. rewrite M2 in D2.
  revert D1 D2. generalize (s1 / 26) (s2 / 26). intros q1 q2 D1 D2.
  clear M1 M2. subst s1 s2. crunch.
Qed.

(** C7. No non-trivial shift pair guarantees a perfect round trip for both
    cases at once: the lowercase and the uppercase condition hold together
    (equivalently, every letter round-trips exactly and unambiguously) only
    if both shifts are multiples of 26, and then the cipher is the no-op. *)
Theorem no_nontrivial_pair (s1 s2 : Z) :
  ((s1 * s2 + s1 + s2) mod 26 = 0 /\ (s1 + s2 * s2) mod 26 = 0 <->
   (forall c, is_letter c = true ->
      decrypt_character_with_ambiguity (encrypt_character c s1 s2) s1 s2
        = (c, false))) /\
  ((s1 * s2 + s1 + s2) mod 26 = 0 -> (s1 + s2 * s2) mod 26 = 0 ->
   s1 mod 26 = 0 /\ s2 mod 26 = 0 /\
   forall c, encrypt_character c s1 s2 = c).
Proof.
  split.
  - split.
    + intros [C1 C2] c L. unfold is_letter in L.
      destruct (is_lower c) eqn:Lo.
      * now apply lower_cond_round_trip.
      * now apply upper_cond_round_trip.
    + intros H. split.
      * apply lower_round_trip_iff. intros c Lo. apply H.
        unfold is_letter. now rewrite Lo.
      * apply upper_round_trip_iff. intros c Up. apply H.
        unfold is_letter. rewrite Up. apply orb_true_r.
  - intros C1 C2. destruct (both_conditions_zero s1 s2 C1 C2) as [M1 M2].
    repeat split; auto. intros c. now apply multiples_of_26_noop.
Qed.

Lemma no_nontrivial_pair_witness :
  26 mod 26 = 0 /\ (-52) mod 26 = 0 /\
  forall c, encrypt_character c 26 (-52) = c.
Proof.
  apply (proj2 (no_nontrivial_pair 26 (-52))); reflexivity.
Defined.

(** ** The positions reported by [decrypt_file] *)

Section Streams.

(** [str.isalpha] on one character, as in the model of [decrypt_file]. *)
Variable isalpha : char -> bool.

Lemma decrypt_loop_positions s1 s2 cipher :
  forall i st,
    ambiguous_positions (decrypt_loop isalpha s1 s2 i cipher st) =
    ambiguous_positions st ++ flagged isalpha s1 s2 i cipher.
Proof.
  induction cipher as [| ch rest IH]; intros i st; cbn [decrypt_loop flagged].
  - now rewrite app_nil_r.
  - rewrite IH. unfold decrypt_step.
    destruct (decrypt_character_with_ambiguity ch s1 s2) as [dec amb].
    cbn [snd ambiguous_positions].
    destruct (amb && isalpha ch); [now rewrite <- app_assoc | reflexivity].
Qed.

Lemma decrypt_loop_out_chars s1 s2 cipher :
  forall i st,
    out_chars (decrypt_loop isalpha s1 s2 i cipher st) =
    out_chars st ++
    map (fun ch => fst (decrypt_character_with_ambiguity ch s1 s2)) cipher.
Proof.
  induction cipher as [| ch rest IH]; intros i st; cbn [decrypt_loop map].
  - now rewrite app_nil_r.
  - rewrite IH. unfold decrypt_step.
    destruct (decrypt_character_with_ambiguity ch s1 s2) as [dec amb].
    cbn [fst out_chars]. now rewrite <- app_assoc.
Qed.

(** Only a letter of a-z or A-Z is ever flagged. *)
Lemma flagged_is_letter ch s1 s2 :
  snd (decrypt_character_with_ambiguity ch s1 s2) = true ->
  is_letter ch = true.
Proof.
  destruct (is_letter ch) eqn:L; [reflexivity |].
  now rewrite (decrypt_other _ _ _ L).
Qed.

Lemma flagged_spec s1 s2 cipher :
  forall i p, In p (flagged isalpha s1 s2 i cipher) ->
    (i <= p)%nat /\
    exists ch, nth_error cipher (p - i) = Some ch /\
               snd (decrypt_character_with_ambiguity ch s1 s2) = true /\
               isalpha ch = true.
Proof.
  induction cipher as [| ch rest IH]; intros i p H; cbn [flagged] in H.
  - destruct H.
  - apply in_app_or in H as [H | H].
    + destruct (snd _ && isalpha ch) eqn:E; [| destruct H].
      destruct H as [<- | []]. apply andb_true_iff in E as [E1 E2].
      split; [lia |]. exists ch. rewrite Nat.sub_diag. auto.
    + destruct (IH _ _ H) as (Hle & c & Hn & Hc).
      split; [lia |]. exists c. split; [| exact Hc].
      replace (p - i)%nat with (S (p - S i)) by lia. exact Hn.
Qed.

Lemma flagged_sorted s1 s2 cipher :
  forall i, StronglySorted lt (flagged isalpha s1 s2 i cipher).
Proof.
  induction cipher as [| ch rest IH]; intros i; cbn [flagged].
  - constructor.
  - destruct (snd _ && isalpha ch); cbn [app]; [| apply IH].
    constructor; [apply IH |].
    apply Forall_forall. intros p H.
    destruct (flagged_spec _ _ _ _ _ H) as [Hle _]. lia.
Qed.

(** C9. A character outside a-z and A-Z is left unchanged by
    [encrypt_character] and decoded to itself, not ambiguous; so the
    positions returned by [decrypt_file] are in increasing order, and each
    is a 0-based index of the encrypted text at which it holds a letter of
    a-z or A-Z (one that [isalpha] accepts and the inverse flags). *)
Theorem non_alphabetic_invariance :
  (forall (c : char) (s1 s2 : Z),
      is_letter c = false ->
      encrypt_character c s1 s2 = c /\
      decrypt_character_with_ambiguity c s1 s2 = (c, false)) /\
  (forall (cipher : list char) (s1 s2 : Z),
      StronglySorted lt (snd (decrypt_file isalpha cipher s1 s2)) /\
      forall p, In p (snd (decrypt_file isalpha cipher s1 s2)) ->
        exists ch, nth_error cipher p = Some ch /\
                   is_letter ch = true /\ isalpha ch = true /\
                   snd (decrypt_character_with_ambiguity ch s1 s2) = true).
Proof.
  split.
  - intros c s1 s2 L. split; [now apply encrypt_other | now apply decrypt_other].
  - intros cipher s1 s2. unfold decrypt_file. cbn [snd].
    rewrite decrypt_loop_positions. cbn [ambiguous_positions app].
    split; [apply flagged_sorted |].
    intros p H. destruct (flagged_spec _ _ _ _ _ H) as (_ & ch & Hn & Hf & Ha).
    rewrite Nat.sub_0_r in Hn. exists ch.
    repeat split; auto. now apply flagged_is_letter with s1 s2.
Qed.

End Streams.

Lemma non_alphabetic_invariance_witness :
  decrypt_character_with_ambiguity (lit ",") 3 4 = (lit ",", false) /\
  snd (decrypt_file is_letter [lit "q"; lit ","; lit "a"] 3 4) = [0; 2]%nat /\
  exists ch, nth_error [lit "q"; lit ","; lit "a"] 2 = Some ch /\
             is_letter ch = true /\ is_letter ch = true /\
             snd (decrypt_character_with_ambiguity ch 3 4) = true.
Proof.
  split; [| split].
  - apply (proj1 (non_alphabetic_invariance is_letter) (lit ",") 3 4).
    reflexivity.
  - reflexivity.
  - apply (proj2 (non_alphabetic_invariance is_letter)
             [lit "q"; lit ","; lit "a"] 3 4).
    right. left. reflexivity.
Defined.

(** ** Further properties of the transform and its inverse *)

(** Adding multiples of 26 to the shifts changes no candidate. *)
Lemma cand_shift_period ch s1 s2 k1 k2 :
  cand1 ch (s1 + 26 * k1) (s2 + 26 * k2) = cand1 ch s1 s2 /\
  cand2 ch (s1 + 26 * k1) (s2 + 26 * k2) = cand2 ch s1 s2.
Proof. crunch. Qed.

(** Only the shifts mod 26 matter to [encrypt_character]: adding a multiple
    of 26 to either shift gives the same character. *)
Theorem encrypt_shift_period (c : char) (s1 s2 k1 k2 : Z) :
  encrypt_character c (s1 + 26 * k1) (s2 + 26 * k2) = encrypt_character c s1 s2.
Proof. crunch. Qed.

(** Only the shifts mod 26 matter to [decrypt_character_with_ambiguity]:
    adding a multiple of 26 to either shift gives the same character and
    the same flag. *)
Theorem decrypt_shift_period (ch : char) (s1 s2 k1 k2 : Z) :
  decrypt_character_with_ambiguity ch (s1 + 26 * k1) (s2 + 26 * k2) =
  decrypt_character_with_ambiguity ch s1 s2.
Proof.
  destruct (is_letter ch) eqn:L.
  - rewrite !(decrypt_decision _ _ _ L).
    rewrite !(ok1_first_half _ _ _ L), !(ok2_second_half _ _ _ L).
    destruct (cand_shift_period ch s1 s2 k1 k2) as [-> ->]. reflexivity.
  - now rewrite !(decrypt_other _ _ _ L).
Qed.

(** Neither function changes the class of a character: the result is a
    lowercase letter, an uppercase letter or a non-letter exactly as the
    input is, and a non-letter is returned as it is. *)
Theorem character_class_preserved (ch : char) (s1 s2 : Z) :
  is_lower (encrypt_character ch s1 s2) = is_lower ch /\
  is_upper (encrypt_character ch s1 s2) = is_upper ch /\
  is_lower (fst (decrypt_character_with_ambiguity ch s1 s2)) = is_lower ch /\
  is_upper (fst (decrypt_character_with_ambiguity ch s1 s2)) = is_upper ch.
Proof.
  split; [apply encrypt_is_lower |]. split; [apply encrypt_is_upper |].
  destruct (is_letter ch) eqn:L.
  - rewrite (decrypt_decision _ _ _ L). unfold decision.
    destruct (cand1_case ch s1 s2 L) as [A1 B1].
    destruct (cand2_case ch s1 s2 L) as [A2 B2].
    destruct (ok1 ch s1 s2), (ok2 ch s1 s2); cbn [fst]; auto.
  - rewrite (decrypt_other _ _ _ L). cbn [fst]. auto.
Qed.

(** Within one half of the alphabet the transform is injective: two
    first-half letters with the same encryption are equal, and so are two
    second-half letters.  Collisions only occur between the halves. *)
Theorem encrypt_injective_on_half (c d : char) (s1 s2 : Z) :
  encrypt_character c s1 s2 = encrypt_character d s1 s2 ->
  (first_half c = true /\ first_half d = true) \/
  (second_half c = true /\ second_half d = true) ->
  c = d.
Proof.
  intros E [[Hc Hd] | [Hc Hd]].
  - rewrite (first_half_original c _ s1 s2 Hc E).
    now rewrite <- (first_half_original d _ s1 s2 Hd eq_refl).
  - rewrite (second_half_original c _ s1 s2 Hc E).
    now rewrite <- (second_half_original d _ s1 s2 Hd eq_refl).
Qed.

Lemma encrypt_injective_on_half_witness :
  encrypt_character (lit "b") 3 4 = encrypt_character (lit "b") 3 4 /\
  lit "b" = lit "b".
Proof.
  split; [reflexivity |].
  apply (encrypt_injective_on_half (lit "b") (lit "b") 3 4).
  - reflexivity.
  - left. split; reflexivity.
Defined.

(** The outcome of decoding an encrypted letter, by the half of the
    original. *)
Lemma decrypt_encrypted c s1 s2 :
  is_letter c = true ->
  let ch := encrypt_character c s1 s2 in
  (first_half c = true ->
   decrypt_character_with_ambiguity ch s1 s2 =
     (c, second_half (cand2 ch s1 s2))) /\
  (second_half c = true ->
   decrypt_character_with_ambiguity ch s1 s2 =
     if first_half (cand1 ch s1 s2) then (cand1 ch s1 s2, true)
     else (c, false)).
Proof.
  intros L ch.
  assert (L' : is_letter ch = true) by (subst ch; now rewrite encrypt_is_letter).
  rewrite (decrypt_decision _ _ _ L').
  rewrite (ok1_first_half _ _ _ L'), (ok2_second_half _ _ _ L').
  split; intros H.
  - rewrite <- (first_half_original c ch s1 s2 H eq_refl), H.
    now destruct (second_half _).
  - rewrite <- (second_half_original c ch s1 s2 H eq_refl), H.
    now destruct (first_half _).
Qed.

(** A first-half original (a-m or A-M) is always recovered by decoding its
    encryption, whatever the shifts and whether or not the position is
    flagged. *)
Theorem first_half_always_recovered (c : char) (s1 s2 : Z) :
  first_half c = true ->
  fst (decrypt_character_with_ambiguity (encrypt_character c s1 s2) s1 s2) = c.
Proof.
  intros F.
  assert (L : is_letter c = true) by (apply half_is_letter; now left).
  now rewrite (proj1 (decrypt_encrypted c s1 s2 L) F).
Qed.

Lemma first_half_always_recovered_witness :
  fst (decrypt_character_with_ambiguity (encrypt_character (lit "e") 3 4) 3 4)
  = lit "e".
Proof. apply (first_half_always_recovered (lit "e") 3 4). reflexivity. Defined.

(** Decoding an encrypted character without the ambiguity flag returns the
    original: every decoding error is at a flagged character. *)
Theorem unflagged_is_exact (c : char) (s1 s2 : Z) :
  snd (decrypt_character_with_ambiguity (encrypt_character c s1 s2) s1 s2)
    = false ->
  fst (decrypt_character_with_ambiguity (encrypt_character c s1 s2) s1 s2) = c.
Proof.
  destruct (is_letter c) eqn:L.
  - destruct (decrypt_encrypted c s1 s2 L) as [A B].
    pose proof (halves_partition c L) as P.
    destruct (first_half c) eqn:F.
    + rewrite (A eq_refl). reflexivity.
    + rewrite (B P).
      destruct (first_half (cand1 (encrypt_character c s1 s2) s1 s2));
        cbn [fst snd]; [discriminate | reflexivity].
  - rewrite (encrypt_other _ _ _ L), (decrypt_other _ _ _ L). reflexivity.
Qed.

Lemma unflagged_is_exact_witness :
  fst (decrypt_character_with_ambiguity (encrypt_character (lit "n") 3 4) 3 4)
  = lit "n".
Proof. apply (unflagged_is_exact (lit "n") 3 4). reflexivity. Defined.

(** Decoding an encrypted character gives a wrong character exactly when the
    original is a second-half letter whose encryption is shared by a
    first-half letter; that first-half letter is then what is returned. *)
Theorem wrong_decoding_iff (c : char) (s1 s2 : Z) :
  fst (decrypt_character_with_ambiguity (encrypt_character c s1 s2) s1 s2) <> c
  <->
  second_half c = true /\
  exists o, first_half o = true /\
            encrypt_character o s1 s2 = encrypt_character c s1 s2 /\
            decrypt_character_with_ambiguity (encrypt_character c s1 s2) s1 s2
              = (o, true).
Proof.
  split.
  - intros W. destruct (is_letter c) eqn:L.
    + destruct (decrypt_encrypted c s1 s2 L) as [A B].
      pose proof (halves_partition c L) as P.
      destruct (first_half c) eqn:F.
      * rewrite (A eq_refl) in W. now destruct W.
      * split; [exact P |]. rewrite (B P) in W |- *.
        assert (L' : is_letter (encrypt_character c s1 s2) = true)
          by now rewrite encrypt_is_letter.
        destruct (first_half (cand1 _ s1 s2)) eqn:F1; [| now destruct W].
        exists (cand1 (encrypt_character c s1 s2) s1 s2).
        auto using cand1_reencrypts.
    + rewrite (encrypt_other _ _ _ L), (decrypt_other _ _ _ L) in W.
      now destruct W.
  - intros (S2 & o & F & E & D). rewrite D. cbn [fst].
    now apply halves_distinct.
Qed.

(** On an encrypted character the flag is raised exactly at a collision:
    when the character of the original's case has an original in each
    half. *)
Theorem flag_on_encrypted_iff_collision (c : char) (s1 s2 : Z) :
  snd (decrypt_character_with_ambiguity (encrypt_character c s1 s2) s1 s2)
    = true <->
  collision (encrypt_character c s1 s2) s1 s2.
Proof.
  set (ch := encrypt_character c s1 s2).
  split.
  - intros A.
    assert (L' : is_letter ch = true) by now apply flagged_is_letter with s1 s2.
    assert (L : is_letter c = true)
      by now rewrite <- (encrypt_is_letter c s1 s2).
    rewrite (decrypt_decision _ _ _ L') in A. unfold decision in A.
    pose proof (proj2 (verified_iff_encrypted ch s1 s2 L')
                  (ex_intro _ c eq_refl)) as V.
    destruct (ok1 ch s1 s2) eqn:O1, (ok2 ch s1 s2) eqn:O2;
      try discriminate A.
    + now apply both_verified_collision.
    + destruct V; discriminate.
  - intros (o1 & o2 & F1 & F2 & S1 & _ & _ & E1 & E2).
    assert (L' : is_letter ch = true).
    { rewrite <- E1, encrypt_is_letter. apply half_is_letter. now left. }
    rewrite (decrypt_decision _ _ _ L').
    rewrite (ok1_first_half _ _ _ L'), (ok2_second_half _ _ _ L').
    rewrite <- (first_half_original o1 ch s1 s2 F1 E1), F1.
    rewrite <- (second_half_original o2 ch s1 s2 F2 E2), F2.
    reflexivity.
Qed.

Lemma wrong_decoding_iff_witness :
  second_half (lit "x") = true /\
  exists o, first_half o = true /\
            encrypt_character o 3 4 = encrypt_character (lit "x") 3 4 /\
            decrypt_character_with_ambiguity (encrypt_character (lit "x") 3 4) 3 4
              = (o, true).
Proof.
  apply (proj1 (wrong_decoding_iff (lit "x") 3 4)). vm_compute. discriminate.
Defined.

Lemma flag_on_encrypted_iff_collision_witness :
  collision (encrypt_character (lit "x") 3 4) 3 4.
Proof.
  apply (proj1 (flag_on_encrypted_iff_collision (lit "x") 3 4)). reflexivity.
Defined.

(** ** Further properties of the streams *)

Section StreamProperties.

(** [str.isalpha] on one character, as in the model of [decrypt_file]. *)
Variable isalpha : char -> bool.

Lemma flagged_complete s1 s2 cipher :
  forall i j ch,
    nth_error cipher j = Some ch ->
    snd (decrypt_character_with_ambiguity ch s1 s2) = true ->
    isalpha ch = true ->
    In (i + j)%nat (flagged isalpha s1 s2 i cipher).
Proof.
  induction cipher as [| c rest IH]; intros i j ch Hn Hf Ha.
  - destruct j; discriminate Hn.
  - cbn [flagged]. apply in_or_app. destruct j as [| j]; cbn in Hn.
    + left. injection Hn as ->. rewrite Hf, Ha. cbn. left. lia.
    + right. replace (i + S j)%nat with (S i + j)%nat by lia.
      now apply IH with ch.
Qed.

(** The text written by [decrypt_file] is the character-by-character
    decoding of the text read, of the same length; the accumulating loop
    drops and reorders nothing. *)
Theorem decrypt_file_text (cipher : list char) (s1 s2 : Z) :
  fst (decrypt_file isalpha cipher s1 s2) =
    map (fun ch => fst (decrypt_character_with_ambiguity ch s1 s2)) cipher /\
  length (fst (decrypt_file isalpha cipher s1 s2)) = length cipher.
Proof.
  assert (E : fst (decrypt_file isalpha cipher s1 s2) =
              map (fun ch => fst (decrypt_character_with_ambiguity ch s1 s2))
                  cipher).
  { unfold decrypt_file. cbn [fst]. now rewrite decrypt_loop_out_chars. }
  split; [exact E |]. rewrite E. apply length_map.
Qed.

(** The list returned by [decrypt_file] holds exactly the indices of the
    text read whose character is flagged by the inverse and accepted by
    [isalpha]: no such index is missed and no other is reported. *)
Theorem decrypt_file_positions_exact (cipher : list char) (s1 s2 : Z) (p : nat) :
  In p (snd (decrypt_file isalpha cipher s1 s2)) <->
  exists ch, nth_error cipher p = Some ch /\
             snd (decrypt_character_with_ambiguity ch s1 s2) = true /\
             isalpha ch = true.
Proof.
  unfold decrypt_file. cbn [snd]. rewrite decrypt_loop_positions.
  cbn [ambiguous_positions app]. split.
  - intros H. destruct (flagged_spec _ _ _ _ _ _ H) as (_ & ch & Hn & Hc).
    rewrite Nat.sub_0_r in Hn. eauto.
  - intros (ch & Hn & Hf & Ha).
    apply (flagged_complete s1 s2 cipher 0%nat p ch); assumption.
Qed.

(** When every character of a text decodes back exactly and unflagged, the
    two passes give the text back and report no position. *)
Lemma exact_characters_exact_text text s1 s2 :
  (forall c, In c text ->
     decrypt_character_with_ambiguity (encrypt_character c s1 s2) s1 s2
       = (c, false)) ->
  decrypt_file isalpha (encrypt_file text s1 s2) s1 s2 = (text, []).
Proof.
  intros H. unfold decrypt_file, encrypt_file.
  rewrite decrypt_loop_out_chars, decrypt_loop_positions.
  cbn [out_chars ambiguous_positions app]. f_equal.
  - rewrite map_map. rewrite <- (map_id text) at 2.
    apply map_ext_in. intros c Hc. now rewrite (H c Hc).
  - generalize 0%nat. induction text as [| c rest IH]; intros i; [reflexivity |].
    cbn [map flagged]. rewrite (H c (or_introl eq_refl)). cbn.
    apply IH. intros d Hd. apply H. now right.
Qed.

End StreamProperties.

(** ** Verification *)

Lemma text_eq_iff raw dec : text_eq raw dec = true <-> raw = dec.
Proof.
  revert dec. induction raw as [| a raw IH]; intros [| b dec]; cbn [text_eq];
    try (split; [discriminate | discriminate]); [tauto |].
  unfold char_eq. rewrite andb_true_iff, Z.eqb_eq, IH.
  split; [intros [-> ->]; reflexivity | intros E; injection E; auto].
Qed.

(** Two texts of one length that differ, differ at some index. *)
Lemma differ_at_index (raw : list char) :
  forall dec, length raw = length dec -> raw <> dec ->
    exists j a b, nth_error raw j = Some a /\ nth_error dec j = Some b /\ a <> b.
Proof.
  induction raw as [| a raw IH]; intros [| b dec] Hl Hd; try discriminate Hl.
  - now destruct Hd.
  - destruct (Z.eq_dec a b) as [-> | N].
    + destruct (IH dec) as (j & x & y & H); [now injection Hl | congruence |].
      exists (S j), x, y. exact H.
    + exists 0%nat, a, b. auto.
Qed.

(** The loop of [verify_files]: what it appends to the list it is given. *)
Lemma find_mismatches_spec k raw :
  forall dec i acc, exists l,
    find_mismatches k i raw dec acc = acc ++ l /\
    (forall j a b, In (j, a, b) l ->
       (i <= j)%nat /\ nth_error raw (j - i) = Some a /\
       nth_error dec (j - i) = Some b /\ a <> b) /\
    StronglySorted lt (map (fun m : mismatch => fst (fst m)) l) /\
    Z.of_nat (length l) <= Z.max 1 (k - Z.of_nat (length acc)) /\
    (forall j a b,
       nth_error raw j = Some a -> nth_error dec j = Some b -> a <> b ->
       In ((i + j)%nat, a, b) l \/
       (l <> [] /\ k <= Z.of_nat (length (acc ++ l)) /\
        forall m : mismatch, In m l -> (fst (fst m) < i + j)%nat)).
Proof.
  induction raw as [| a raw IH]; intros dec i acc.
  { exists []. cbn [find_mismatches]. rewrite app_nil_r.
    split; [reflexivity |]. split; [intros j x y [] |].
    split; [constructor |]. split; [cbn [length]; lia |].
    intros j x y H. destruct j; discriminate H. }
  destruct dec as [| b dec].
  { exists []. cbn [find_mismatches]. rewrite app_nil_r.
    split; [reflexivity |]. split; [intros j x y [] |].
    split; [constructor |]. split; [cbn [length]; lia |].
    intros j x y _ H. destruct j; discriminate H. }
  cbn [find_mismatches]. unfold char_eq.
  destruct (Z.eqb_spec a b) as [E | N]; cbn [negb].
  - destruct (IH dec (S i) acc) as (l & R & G & So & B & C).
    exists l. split; [exact R |]. split; [| split; [exact So | split; [exact B |]]].
    + intros j x y H. destruct (G j x y H) as (Hle & Hr & Hd & Hn).
      replace (j - i)%nat with (S (j - S i)) by lia. cbn. repeat split; auto; lia.
    + intros [| j] x y Hr Hd Hn; cbn in Hr, Hd.
      * congruence.
      * replace (i + S j)%nat with (S i + j)%nat by lia. now apply C.
  - rewrite Z.geb_leb.
    destruct (Z.leb_spec k (Z.of_nat (length (acc ++ [(i, a, b)])))) as [Hk | Hk].
    + exists [(i, a, b)]. split; [reflexivity |].
      split; [| split; [| split]].
      * intros j x y [H | []]. injection H as <- <- <-.
        rewrite Nat.sub_diag. cbn. auto.
      * cbn. repeat constructor.
      * cbn [length]. lia.
      * intros [| j] x y Hr Hd Hn; cbn in Hr, Hd.
        -- left. left. rewrite Nat.add_0_r. congruence.
        -- right. split; [discriminate |]. split; [exact Hk |].
           intros m [<- | []]. cbn. lia.
    + destruct (IH dec (S i) (acc ++ [(i, a, b)])) as (l & R & G & So & B & C).
      exists ((i, a, b) :: l). rewrite R, <- app_assoc. split; [reflexivity |].
      rewrite length_app in Hk, B. cbn [length] in Hk, B.
      split; [| split; [| split]].
      * intros j x y [H | H].
        -- injection H as <- <- <-. rewrite Nat.sub_diag. cbn. auto.
        -- destruct (G j x y H) as (Hle & Hr & Hd & Hn).
           replace (j - i)%nat with (S (j - S i)) by lia.
           cbn. repeat split; auto; lia.
      * cbn [map fst]. constructor; [exact So |].
        apply Forall_forall. intros p Hp. apply in_map_iff in Hp.
        destruct Hp as ([[j x] y] & <- & Hin). cbn.
        destruct (G j x y Hin) as [Hle _]. lia.
      * cbn [length]. lia.
      * intros [| j] x y Hr Hd Hn; cbn in Hr, Hd.
        -- left. left. rewrite Nat.add_0_r. congruence.
        -- replace (i + S j)%nat with (S i + j)%nat by lia.
           destruct (C j x y Hr Hd Hn) as [H | (H1 & H2 & H3)].
           ++ left. now right.
           ++ right. split; [discriminate |]. split.
              ** rewrite <- app_assoc in H2. exact H2.
              ** intros m [<- | Hm]; [cbn; lia | now apply H3].
Qed.

(** With [show_diffs] at most 1 the loop stops at the first difference, as
    with [show_diffs = 1]. *)
Lemma find_mismatches_small k raw :
  k <= 1 ->
  forall dec i acc,
    find_mismatches k i raw dec acc = find_mismatches 1 i raw dec acc.
Proof.
  intros Hk. induction raw as [| a raw IH]; intros [| b dec] i acc;
    try reflexivity.
  cbn [find_mismatches]. destruct (negb (char_eq a b)); [| apply IH].
  rewrite !Z.geb_leb, length_app. cbn [length].
  destruct (Z.leb_spec k (Z.of_nat (length acc + 1)));
    destruct (Z.leb_spec 1 (Z.of_nat (length acc + 1))); try lia; reflexivity.
Qed.

(** [verify_files] returns [True], printing no report, exactly when the two
    texts are equal; otherwise it returns [False] with a report that is
    never empty: it has the note on lengths (exactly when the lengths
    differ) or at least one difference. *)
Theorem verify_files_verdict (raw dec : list char) (show_diffs : Z) :
  (raw = dec -> verify_files raw dec show_diffs = (true, None)) /\
  (raw <> dec ->
   exists r, verify_files raw dec show_diffs = (false, Some r) /\
             (length_differs r = true <-> length raw <> length dec) /\
             (length_differs r = true \/ mismatches r <> [])).
Proof.
  unfold verify_files. split.
  - intros E. apply text_eq_iff in E. now rewrite E.
  - intros N. destruct (text_eq raw dec) eqn:E;
      [apply text_eq_iff in E; contradiction |].
    eexists. split; [reflexivity |]. cbn [length_differs mismatches].
    assert (Hl : negb (length raw =? length dec)%nat = true <->
                 length raw <> length dec).
    { rewrite negb_true_iff, Nat.eqb_neq. reflexivity. }
    split; [exact Hl |].
    destruct (Nat.eq_dec (length raw) (length dec)) as [L | L];
      [right | left; now apply Hl].
    destruct (differ_at_index raw dec L N) as (j & a & b & Hr & Hd & Hn).
    destruct (find_mismatches_spec show_diffs raw dec 0%nat [])
      as (l & -> & _ & _ & _ & C).
    cbn [app]. destruct (C j a b Hr Hd Hn) as [H | [H _]]; [| exact H].
    intros ->. destruct H.
Qed.

Lemma verify_files_verdict_witness :
  verify_files [lit "a"; lit "b"] [lit "a"; lit "b"] 5 = (true, None) /\
  exists r, verify_files [lit "a"; lit "b"] [lit "a"] 5 = (false, Some r) /\
            (length_differs r = true <->
             length [lit "a"; lit "b"] <> length [lit "a"]) /\
            (length_differs r = true \/ mismatches r <> []).
Proof.
  split.
  - apply (proj1 (verify_files_verdict [lit "a"; lit "b"] [lit "a"; lit "b"] 5)).
    reflexivity.
  - apply (proj2 (verify_files_verdict [lit "a"; lit "b"] [lit "a"] 5)).
    discriminate.
Defined.

(** Every difference [(pos, a, b)] that [verify_files] lists is genuine:
    [a] and [b] are the characters of the two texts at index [pos], they
    differ, and the differences are listed by increasing index. *)
Theorem reported_differences_genuine
  (raw dec : list char) (show_diffs : Z) (r : verify_report) :
  verify_files raw dec show_diffs = (false, Some r) ->
  (forall pos a b, In (pos, a, b) (mismatches r) ->
     nth_error raw pos = Some a /\ nth_error dec pos = Some b /\ a <> b) /\
  StronglySorted lt (map (fun m : mismatch => fst (fst m)) (mismatches r)).
Proof.
  unfold verify_files. destruct (text_eq raw dec); [discriminate |].
  intros E. injection E as <-. cbn [mismatches].
  destruct (find_mismatches_spec show_diffs raw dec 0%nat [])
    as (l & -> & G & So & _). cbn [app].
  split; [| exact So].
  intros pos a b H. destruct (G pos a b H) as (_ & Hr & Hd & Hn).
  rewrite Nat.sub_0_r in Hr, Hd. auto.
Qed.

Lemma reported_differences_genuine_witness :
  nth_error [lit "a"; lit "b"; lit "c"] 1 = Some (lit "b") /\
  nth_error [lit "a"; lit "x"; lit "y"] 1 = Some (lit "x") /\
  lit "b" <> lit "x".
Proof.
  apply (proj1 (reported_differences_genuine
                  [lit "a"; lit "b"; lit "c"] [lit "a"; lit "x"; lit "y"] 1
                  {| length_differs := false;
                     mismatches := [(1%nat, lit "b", lit "x")] |} eq_refl)).
  left. reflexivity.
Defined.

(** [verify_files] lists the first differences over the common length of
    the two texts, at most [max(1, show_diffs)] of them: a differing index
    is left out only when the list is full and every listed index is
    smaller.  Even [show_diffs <= 0] lists one difference. *)
Theorem reported_differences_first
  (raw dec : list char) (show_diffs : Z) (r : verify_report) :
  verify_files raw dec show_diffs = (false, Some r) ->
  Z.of_nat (length (mismatches r)) <= Z.max 1 show_diffs /\
  forall pos a b,
    nth_error raw pos = Some a -> nth_error dec pos = Some b -> a <> b ->
    In (pos, a, b) (mismatches r) \/
    (Z.of_nat (length (mismatches r)) = Z.max 1 show_diffs /\
     forall m : mismatch, In m (mismatches r) -> (fst (fst m) < pos)%nat).
Proof.
  unfold verify_files. destruct (text_eq raw dec); [discriminate |].
  intros E. injection E as <-. cbn [mismatches].
  destruct (find_mismatches_spec show_diffs raw dec 0%nat [])
    as (l & -> & _ & _ & B & C). cbn [app length] in *.
  rewrite Z.sub_0_r in B. split; [exact B |].
  intros pos a b Hr Hd Hn.
  destruct (C pos a b Hr Hd Hn) as [H | (H1 & H2 & H3)]; [now left | right].
  split; [| exact H3].
  destruct l; [now destruct H1 | cbn [length] in *; lia].
Qed.

Lemma reported_differences_first_witness :
  Z.of_nat (length [(1%nat, lit "b", lit "x")]) <= Z.max 1 0.
Proof.
  apply (proj1 (reported_differences_first
                  [lit "a"; lit "b"; lit "c"] [lit "a"; lit "x"; lit "y"] 0
                  {| length_differs := false;
                     mismatches := [(1%nat, lit "b", lit "x")] |} eq_refl)).
Defined.

(** A [show_diffs] of zero or less does not silence the report:
    [verify_files] then behaves as with [show_diffs = 1]. *)
Theorem show_diffs_at_most_one (raw dec : list char) (show_diffs : Z) :
  show_diffs <= 1 ->
  verify_files raw dec show_diffs = verify_files raw dec 1.
Proof.
  intros H. unfold verify_files.
  now rewrite (find_mismatches_small show_diffs raw H).
Qed.

Lemma show_diffs_at_most_one_witness :
  verify_files [lit "a"; lit "b"] [lit "x"; lit "y"] (-3) =
  verify_files [lit "a"; lit "b"] [lit "x"; lit "y"] 1.
Proof.
  apply (show_diffs_at_most_one [lit "a"; lit "b"] [lit "x"; lit "y"] (-3)).
  lia.
Defined.

(** ** The advisory and the whole run *)

Lemma existsb_false_forall (f : char -> bool) (text : list char) :
  existsb f text = false <-> forall c, In c text -> f c = false.
Proof.
  induction text as [| a text IH]; cbn [existsb].
  - split; [intros _ c [] | reflexivity].
  - rewrite orb_false_iff, IH. split.
    + intros [Ha H] c [<- | Hc]; auto.
    + intros H. split; [apply H; now left | intros c Hc; apply H; now right].
Qed.

(** The advisory names the case composition of the text: no letter of a-z
    or A-Z, letters of both cases, or letters of one case only; in the last
    two it carries the value of the condition of that case. *)
Theorem advisory_composition (text : list char) (s1 s2 : Z) :
  let has_lower := exists c, In c text /\ is_lower c = true in
  let has_upper := exists c, In c text /\ is_upper c = true in
  match check_reversibility_for_text text s1 s2 with
  | NoLetters => ~ has_lower /\ ~ has_upper
  | MixedCase => has_lower /\ has_upper
  | LowercaseOnly cond =>
      has_lower /\ ~ has_upper /\
      (cond = true <-> (s1 * s2 + s1 + s2) mod 26 = 0)
  | UppercaseOnly cond =>
      has_upper /\ ~ has_lower /\
      (cond = true <-> (s1 + s2 * s2) mod 26 = 0)
  end.
Proof.
  intros has_lower has_upper. unfold check_reversibility_for_text.
  fold is_lower is_upper. cbv zeta.
  assert (Lo : existsb is_lower text = true <-> has_lower)
    by apply existsb_exists.
  assert (Up : existsb is_upper text = true <-> has_upper)
    by apply existsb_exists.
  destruct (existsb is_lower text), (existsb is_upper text); cbn [andb negb].
  - split; [now apply Lo | now apply Up].
  - split; [now apply Lo |]. split; [| apply Z.eqb_eq].
    intros H. apply Up in H. discriminate H.
  - split; [now apply Up |]. split; [| apply Z.eqb_eq].
    intros H. apply Lo in H. discriminate H.
  - split; intros H; [apply Lo in H | apply Up in H]; discriminate H.
Qed.

(** A letter is decoded back from its encryption unless it is a second-half
    letter whose first-half candidate lies in the first half. *)
Lemma exact_decoding_iff c s1 s2 :
  fst (decrypt_character_with_ambiguity (encrypt_character c s1 s2) s1 s2) = c
  <->
  (second_half c = true ->
   first_half (cand1 (encrypt_character c s1 s2) s1 s2) = false).
Proof.
  destruct (is_letter c) eqn:L.
  - destruct (decrypt_encrypted c s1 s2 L) as [A B].
    pose proof (halves_partition c L) as P.
    destruct (first_half c) eqn:F.
    + rewrite (A eq_refl). cbn [fst]. split; [| reflexivity].
      intros _ H. rewrite P in H. discriminate H.
    + rewrite (B P).
      destruct (first_half (cand1 (encrypt_character c s1 s2) s1 s2)) eqn:F1;
        cbn [fst].
      * split; [| intros H; now specialize (H P)].
        intros E. rewrite E in F1. congruence.
      * split; reflexivity.
  - rewrite (encrypt_other _ _ _ L), (decrypt_other _ _ _ L). cbn [fst].
    split; [| reflexivity]. intros _ H.
    assert (is_letter c = true) by (apply half_is_letter; now right).
    congruence.
Qed.

(** Shifts that are multiples of 26 decode every character to itself,
    unflagged. *)
Lemma decrypt_multiples_of_26 ch s1 s2 :
  s1 mod 26 = 0 -> s2 mod 26 = 0 ->
  decrypt_character_with_ambiguity ch s1 s2 = (ch, false).
Proof.
  intros M1 M2.
  destruct (is_letter ch) eqn:L; [| now apply decrypt_other].
  pose proof (Z.div_mod s1 26 ltac:(lia)) as D1.
  pose proof (Z.div_mod s2 26 ltac:(lia)) as D2.
  rewrite M1, Z.add_0_r in D1. rewrite M2, Z.add_0_r in D2.
  rewrite (decrypt_decision _ _ _ L).
  rewrite (ok1_first_half _ _ _ L), (ok2_second_half _ _ _ L).
  replace s1 with (0 + 26 * (s1 / 26)) by lia.
  replace s2 with (0 + 26 * (s2 / 26)) by lia.
  destruct (cand_shift_period ch 0 0 (s1 / 26) (s2 / 26)) as [-> ->].
  destruct (cand_zero ch L) as [-> ->].
  rewrite (halves_partition ch L). now destruct (first_half ch).
Qed.

Section RunProperties.

(** [str.isalpha] on one character, as in the model of [decrypt_file]. *)
Variable isalpha : char -> bool.

(** [str.isalpha] accepts the letters a-z and A-Z. *)
Hypothesis isalpha_ascii : forall c, is_letter c = true -> isalpha c = true.

Lemma run_decrypted_text sample s1 s2 :
  decrypted_text (main isalpha sample s1 s2) =
  map (fun c => fst (decrypt_character_with_ambiguity
                       (encrypt_character c s1 s2) s1 s2)) sample.
Proof.
  unfold main, decrypt_file, encrypt_file. cbn [decrypted_text].
  rewrite decrypt_loop_out_chars. cbn [out_chars app]. apply map_map.
Qed.

Lemma run_ambiguous sample s1 s2 :
  ambiguous (main isalpha sample s1 s2) =
  flagged isalpha s1 s2 0 (encrypt_file sample s1 s2).
Proof.
  unfold main, decrypt_file. cbn [ambiguous].
  now rewrite decrypt_loop_positions.
Qed.

Lemma run_verified sample s1 s2 :
  verified (main isalpha sample s1 s2) =
  verify_files sample (decrypted_text (main isalpha sample s1 s2)) 5.
Proof. reflexivity. Qed.

(** In a run the three texts have one length, so a failed verification
    never prints the note on lengths and always lists a difference. *)
Theorem run_lengths (sample : list char) (s1 s2 : Z) :
  let r := main isalpha sample s1 s2 in
  length (encrypted_text r) = length sample /\
  length (decrypted_text r) = length sample /\
  forall rep, snd (verified r) = Some rep ->
              length_differs rep = false /\ mismatches rep <> [].
Proof.
  intros r. subst r.
  assert (Ld : length (decrypted_text (main isalpha sample s1 s2)) =
               length sample)
    by (rewrite run_decrypted_text; apply length_map).
  split; [apply length_map |]. split; [exact Ld |].
  intros rep. rewrite run_verified.
  remember (decrypted_text (main isalpha sample s1 s2)) as dec eqn:Hdec.
  clear Hdec. unfold verify_files.
  destruct (text_eq sample dec) eqn:E; cbn [snd]; [discriminate |].
  intros H. injection H as <-. cbn [length_differs mismatches].
  rewrite Ld, Nat.eqb_refl. split; [reflexivity |].
  assert (N : sample <> dec).
  { intros H. apply text_eq_iff in H. congruence. }
  destruct (differ_at_index _ _ (eq_sym Ld) N) as (j & a & b & Hr & Hd & Hn).
  destruct (find_mismatches_spec 5 sample dec 0%nat [])
    as (l & -> & _ & _ & _ & C).
  cbn [app]. destruct (C j a b Hr Hd Hn) as [H | [H _]]; [| exact H].
  intros ->. destruct H.
Qed.

(** Every decoding error of a run is reported: an index at which the
    decrypted text differs from the original is in the list of ambiguous
    positions. *)
Theorem run_errors_are_flagged (sample : list char) (s1 s2 : Z) (i : nat)
  (c d : char) :
  let r := main isalpha sample s1 s2 in
  nth_error sample i = Some c ->
  nth_error (decrypted_text r) i = Some d ->
  c <> d ->
  In i (ambiguous r).
Proof.
  intros r Hc Hd N. subst r.
  rewrite run_decrypted_text, nth_error_map, Hc in Hd. cbn in Hd.
  injection Hd as <-.
  rewrite run_ambiguous.
  set (ch := encrypt_character c s1 s2) in *.
  assert (A : snd (decrypt_character_with_ambiguity ch s1 s2) = true).
  { destruct (snd _) eqn:A; [reflexivity | exfalso]. apply N. symmetry.
    destruct (is_letter c) eqn:L.
    - destruct (decrypt_encrypted c s1 s2 L) as [A1 A2]. fold ch in A1, A2.
      pose proof (halves_partition c L) as P.
      destruct (first_half c) eqn:F.
      + now rewrite (A1 eq_refl).
      + rewrite (A2 P) in A |- *.
        destruct (first_half (cand1 ch s1 s2)); [discriminate A | reflexivity].
    - subst ch. now rewrite (encrypt_other _ _ _ L), (decrypt_other _ _ _ L). }
  apply (flagged_complete isalpha s1 s2 _ 0%nat i ch).
  - unfold encrypt_file. now rewrite nth_error_map, Hc.
  - exact A.
  - apply isalpha_ascii. now apply flagged_is_letter with s1 s2.
Qed.

End RunProperties.

(** What a one-case verdict of the advisory says of the text and the
    shifts. *)
Lemma advisory_shape (text : list char) (s1 s2 : Z) :
  match check_reversibility_for_text text s1 s2 return Prop with
  | LowercaseOnly cond =>
      (cond = true -> (s1 * s2 + s1 + s2) mod 26 = 0) /\
      forall c, In c text -> is_upper c = false
  | UppercaseOnly cond =>
      (cond = true -> (s1 + s2 * s2) mod 26 = 0) /\
      forall c, In c text -> is_lower c = false
  | _ => True
  end.
Proof.
  unfold check_reversibility_for_text. fold is_lower is_upper. cbv zeta.
  destruct (existsb is_lower text) eqn:Lo, (existsb is_upper text) eqn:Up;
    cbn [andb negb]; try exact I.
  - split; [apply Z.eqb_eq | now apply existsb_false_forall].
  - split; [apply Z.eqb_eq | now apply existsb_false_forall].
Qed.

(** A text made of exactly decoded characters passes a run. *)
Lemma run_exact isalpha sample s1 s2 :
  (forall c, In c sample ->
     decrypt_character_with_ambiguity (encrypt_character c s1 s2) s1 s2
       = (c, false)) ->
  let r := main isalpha sample s1 s2 in
  decrypted_text r = sample /\ ambiguous r = [] /\ verified r = (true, None).
Proof.
  intros H r. subst r.
  pose proof (exact_characters_exact_text isalpha sample s1 s2 H) as E.
  unfold main. rewrite E. cbn [decrypted_text ambiguous verified].
  split; [reflexivity |]. split; [reflexivity |].
  unfold verify_files. now rewrite (proj2 (text_eq_iff sample sample) eq_refl).
Qed.

Section RunVerdicts.

(** [str.isalpha] on one character, as in the model of [decrypt_file]. *)
Variable isalpha : char -> bool.

(** [str.isalpha] accepts the letters a-z and A-Z. *)
Hypothesis isalpha_ascii : forall c, is_letter c = true -> isalpha c = true.

(** A run verifies exactly when no second-half letter of the text shares
    its encryption with a first-half letter: collisions of first-half
    letters of the text, though reported as ambiguous, cost nothing. *)
Theorem run_verdict (sample : list char) (s1 s2 : Z) :
  fst (verified (main isalpha sample s1 s2)) = true <->
  (forall c, In c sample -> second_half c = true ->
     forall o, first_half o = true ->
               encrypt_character o s1 s2 <> encrypt_character c s1 s2).
Proof.
  change (verified (main isalpha sample s1 s2))
    with (verify_files sample (decrypted_text (main isalpha sample s1 s2)) 5).
  rewrite run_decrypted_text. unfold verify_files.
  set (f := fun c => fst (decrypt_character_with_ambiguity
                            (encrypt_character c s1 s2) s1 s2)).
  assert (T : text_eq sample (map f sample) = true <->
              forall c, In c sample -> f c = c).
  { rewrite text_eq_iff. split.
    - intros E c Hc. apply In_nth_error in Hc as [n Hn].
      assert (Hm : nth_error (map f sample) n = Some (f c))
        by now rewrite nth_error_map, Hn.
      rewrite <- E in Hm. congruence.
    - intros H. rewrite <- (map_id sample) at 1. apply map_ext_in.
      intros c Hc. now rewrite (H c Hc). }
  assert (V : fst (if text_eq sample (map f sample)
                   then (true, @None verify_report)
                   else (false,
                         Some {| length_differs :=
                                   negb (length sample =?
                                         length (map f sample))%nat;
                                 mismatches :=
                                   find_mismatches 5 0 sample
                                     (map f sample) [] |}))
              = text_eq sample (map f sample))
    by now destruct (text_eq sample (map f sample)).
  rewrite V, T. clear V T. subst f. cbv beta.
  split.
  - intros H c Hc S2 o F E.
    apply (proj1 (exact_decoding_iff c s1 s2) (H c Hc)) in S2.
    rewrite <- (first_half_original o _ s1 s2 F E) in S2. congruence.
  - intros H c Hc. apply exact_decoding_iff. intros S2.
    destruct (first_half (cand1 _ s1 s2)) eqn:F1; [exfalso | reflexivity].
    apply (H c Hc S2 _ F1). apply cand1_reencrypts; [| exact F1].
    rewrite encrypt_is_letter. apply half_is_letter. now right.
Qed.

(** A run that reports no ambiguous position verifies: the decrypted text
    is the original. *)
Theorem run_without_ambiguity_verifies (sample : list char) (s1 s2 : Z) :
  ambiguous (main isalpha sample s1 s2) = [] ->
  decrypted_text (main isalpha sample s1 s2) = sample /\
  verified (main isalpha sample s1 s2) = (true, None).
Proof.
  intros A.
  cut (forall c, In c sample ->
         decrypt_character_with_ambiguity (encrypt_character c s1 s2) s1 s2
           = (c, false)).
  { intros H. destruct (run_exact isalpha sample s1 s2 H) as (D & _ & V).
    split; assumption. }
  intros c Hc.
  set (ch := encrypt_character c s1 s2).
  assert (U : snd (decrypt_character_with_ambiguity ch s1 s2) = false).
  { destruct (snd _) eqn:F; [exfalso | reflexivity].
    apply In_nth_error in Hc as [n Hn].
    assert (I : In (0 + n)%nat (ambiguous (main isalpha sample s1 s2))).
    { rewrite run_ambiguous. apply flagged_complete with ch.
      - unfold encrypt_file. now rewrite nth_error_map, Hn.
      - exact F.
      - apply isalpha_ascii. now apply flagged_is_letter with s1 s2. }
    rewrite A in I. destruct I. }
  destruct (decrypt_character_with_ambiguity ch s1 s2) as [d a] eqn:D.
  cbn [snd] in U. subst a. f_equal.
  change d with (fst (d, false)). rewrite <- D. subst ch.
  apply exact_decoding_iff. intros S2.
  destruct (first_half (cand1 _ s1 s2)) eqn:F1; [exfalso | reflexivity].
  assert (L : is_letter c = true) by (apply half_is_letter; now right).
  rewrite (proj2 (decrypt_encrypted c s1 s2 L) S2), F1 in D. discriminate D.
Qed.

(** When the advisory reports that the condition holds for a one-case
    text, the run keeps the promise: the decrypted text is the original, no
    position is ambiguous and verification succeeds. *)
Theorem advisory_guarantee (sample : list char) (s1 s2 : Z) :
  check_reversibility_for_text sample s1 s2 = LowercaseOnly true \/
  check_reversibility_for_text sample s1 s2 = UppercaseOnly true ->
  let r := main isalpha sample s1 s2 in
  decrypted_text r = sample /\ ambiguous r = [] /\ verified r = (true, None).
Proof.
  intros H. apply run_exact. intros c Hc.
  pose proof (advisory_shape sample s1 s2) as A.
  destruct H as [H | H]; rewrite H in A.
  - destruct A as (C & NU). destruct (is_lower c) eqn:Lo.
    + apply lower_cond_round_trip; auto.
    + assert (L : is_letter c = false)
        by (unfold is_letter; now rewrite Lo, (NU c Hc)).
      now rewrite (encrypt_other _ _ _ L), (decrypt_other _ _ _ L).
  - destruct A as (C & NL). destruct (is_upper c) eqn:Up.
    + apply upper_cond_round_trip; auto.
    + assert (L : is_letter c = false)
        by (unfold is_letter; now rewrite Up, (NL c Hc)).
      now rewrite (encrypt_other _ _ _ L), (decrypt_other _ _ _ L).
Qed.

(** With both shifts multiples of 26 a run is the identity on every text:
    the encrypted and the decrypted text are the original, nothing is
    ambiguous and verification succeeds. *)
Theorem run_noop_shifts (sample : list char) (s1 s2 : Z) :
  s1 mod 26 = 0 -> s2 mod 26 = 0 ->
  let r := main isalpha sample s1 s2 in
  encrypted_text r = sample /\ decrypted_text r = sample /\
  ambiguous r = [] /\ verified r = (true, None).
Proof.
  intros M1 M2 r. split.
  - subst r. unfold main.
    destruct (decrypt_file isalpha _ s1 s2). cbn [encrypted_text].
    unfold encrypt_file. rewrite <- (map_id sample) at 2.
    apply map_ext. intros c. now apply multiples_of_26_noop.
  - apply run_exact. intros c _.
    rewrite (multiples_of_26_noop s1 s2 c M1 M2).
    now apply decrypt_multiples_of_26.
Qed.

End RunVerdicts.

Lemma decrypt_file_positions_exact_witness :
  In 2%nat (snd (decrypt_file is_letter [lit "q"; lit ","; lit "a"] 3 4)).
Proof.
  apply (proj2 (decrypt_file_positions_exact is_letter
                  [lit "q"; lit ","; lit "a"] 3 4 2)).
  exists (lit "a"). repeat split; reflexivity.
Defined.

Lemma run_lengths_witness :
  length (encrypted_text (main is_letter [lit "o"; lit "x"] 3 4)) = 2%nat /\
  length (decrypted_text (main is_letter [lit "o"; lit "x"] 3 4)) = 2%nat /\
  length_differs {| length_differs := false;
                    mismatches := [(1%nat, lit "x", lit "e")] |} = false /\
  mismatches {| length_differs := false;
                mismatches := [(1%nat, lit "x", lit "e")] |} <> [].
Proof.
  destruct (run_lengths is_letter [lit "o"; lit "x"] 3 4) as (A & B & C).
  split; [exact A |]. split; [exact B |]. apply C. reflexivity.
Defined.

Lemma run_errors_are_flagged_witness :
  In 1%nat (ambiguous (main is_letter [lit "o"; lit "x"] 3 4)).
Proof.
  apply (run_errors_are_flagged is_letter (fun c H => H)
           [lit "o"; lit "x"] 3 4 1 (lit "x") (lit "e")).
  - reflexivity.
  - reflexivity.
  - discriminate.
Defined.

Lemma run_verdict_witness :
  fst (verified (main is_letter
                   [lit "h"; lit "e"; lit "l"; lit "l"; lit "o"] 3 4)) = true.
Proof.
  apply (proj2 (run_verdict is_letter
                  [lit "h"; lit "e"; lit "l"; lit "l"; lit "o"] 3 4)).
  intros c [<- | [<- | [<- | [<- | [<- | []]]]]] S2; try discriminate S2.
  intros o F E. revert F E. unfold first_half. crunch.
Defined.

Lemma run_without_ambiguity_verifies_witness :
  decrypted_text (main is_letter [lit "h"; lit "o"; lit "!"] 3 4)
    = [lit "h"; lit "o"; lit "!"] /\
  verified (main is_letter [lit "h"; lit "o"; lit "!"] 3 4) = (true, None).
Proof.
  apply (run_without_ambiguity_verifies is_letter (fun c H => H)
           [lit "h"; lit "o"; lit "!"] 3 4).
  reflexivity.
Defined.

Lemma advisory_guarantee_witness :
  decrypted_text (main is_letter [lit "t"; lit "o"; lit " "; lit "x"] 2 8)
    = [lit "t"; lit "o"; lit " "; lit "x"] /\
  ambiguous (main is_letter [lit "t"; lit "o"; lit " "; lit "x"] 2 8) = [] /\
  verified (main is_letter [lit "t"; lit "o"; lit " "; lit "x"] 2 8)
    = (true, None).
Proof.
  apply (advisory_guarantee is_letter [lit "t"; lit "o"; lit " "; lit "x"] 2 8).
  left. reflexivity.
Defined.

Lemma run_noop_shifts_witness :
  encrypted_text (main is_letter [lit "H"; lit "i"] 26 (-52))
    = [lit "H"; lit "i"] /\
  decrypted_text (main is_letter [lit "H"; lit "i"] 26 (-52))
    = [lit "H"; lit "i"] /\
  ambiguous (main is_letter [lit "H"; lit "i"] 26 (-52)) = [] /\
  verified (main is_letter [lit "H"; lit "i"] 26 (-52)) = (true, None).
Proof.
  apply (run_noop_shifts is_letter [lit "H"; lit "i"] 26 (-52)); reflexivity.
Defined.

(** ** The fractal drawer *)

Section FractalProperties.

Variable float : Type.
Variable truediv : number float -> number float -> float.

Lemma fractal_side_koch n :
  forall fuel size, (n < fuel)%nat ->
    fractal_side truediv fuel size (Z.of_nat n) = Some (koch truediv n size).
Proof.
  induction n as [| n IH]; intros [| fuel] size H; try lia.
  - reflexivity.
  - cbn [fractal_side koch].
    destruct (Z.eqb_spec (Z.of_nat (S n)) 0) as [E | _]; [lia |].
    replace (Z.of_nat (S n) - 1) with (Z.of_nat n) by lia.
    rewrite IH by lia. reflexivity.
Qed.

Lemma fractal_side_never fuel :
  forall (size : number float) level,
    level < 0 -> fractal_side truediv fuel size level = None.
Proof.
  induction fuel as [| fuel IH]; intros size level H; [reflexivity |].
  cbn [fractal_side].
  destruct (Z.eqb_spec level 0) as [E | _]; [lia |].
  rewrite IH by lia. reflexivity.
Qed.

Lemma forwards_app (a b : list (command float)) :
  forwards (a ++ b) = forwards a ++ forwards b.
Proof.
  induction a as [| [d | x | x] a IH]; cbn [app forwards]; now rewrite ?IH.
Qed.

Lemma turns_app (a b : list (command float)) :
  turns (a ++ b) = turns a ++ turns b.
Proof.
  induction a as [| [d | [x | x] | [x | x]] a IH];
    cbn [app turns]; now rewrite ?IH.
Qed.

Lemma net_turn_app a b : net_turn (a ++ b) = net_turn a + net_turn b.
Proof.
  induction a as [| [x |] a IH]; cbn [app net_turn]; rewrite ?IH; lia.
Qed.

Lemma forwards_koch n :
  forall size,
    forwards (koch truediv n size) = repeat (subdivide truediv n size) (4 ^ n).
Proof.
  induction n as [| n IH]; intros size; [reflexivity |].
  cbn [koch subdivide].
  rewrite !forwards_app, !IH. cbn [forwards app].
  rewrite <- !repeat_app. f_equal. cbn [Nat.pow]. lia.
Qed.

Lemma turns_koch n :
  forall size,
    Forall (fun t => t = Some 60 \/ t = Some (-120))
           (turns (koch truediv n size)) /\
    S (length (turns (koch truediv n size))) = (4 ^ n)%nat /\
    net_turn (turns (koch truediv n size)) = 0.
Proof.
  induction n as [| n IH]; intros size.
  - cbn. repeat split. constructor.
  - cbn [koch].
    destruct (IH (Float (truediv size (Int 3)))) as (A & B & C).
    rewrite !turns_app. cbn [turns].
    repeat split.
    + repeat (apply Forall_app; split); auto; repeat constructor; auto.
    + rewrite !length_app. cbn [length Nat.pow]. lia.
    + rewrite !net_turn_app, C. reflexivity.
Qed.

(** Whenever [fractal_side] returns, the level is not negative and the
    calls made are those of the depth-[level] curve. *)
Lemma fractal_side_some fuel :
  forall (size : number float) level calls,
    fractal_side truediv fuel size level = Some calls ->
    0 <= level /\ calls = koch truediv (Z.to_nat level) size.
Proof.
  induction fuel as [| fuel IH]; intros size level calls H; [discriminate H |].
  cbn [fractal_side] in H.
  destruct (Z.eqb_spec level 0) as [-> | N].
  - injection H as <-. split; [lia | reflexivity].
  - destruct (fractal_side truediv fuel _ (level - 1)) as [t |] eqn:R;
      [| discriminate H].
    destruct (IH _ _ _ R) as [Hl ->]. injection H as <-.
    split; [lia |].
    replace (Z.to_nat level) with (S (Z.to_nat (level - 1))) by lia.
    reflexivity.
Qed.

Lemma draw_sides_spec fuel (side_len : number float) level x side :
  fractal_side truediv fuel side_len level = Some side ->
  forall count, exists calls,
    draw_sides truediv fuel count side_len level (Float x) = Some calls /\
    forwards calls = concat (repeat (forwards side) count) /\
    length (filter (fun t => match t with None => true | Some _ => false end)
                   (turns calls)) =
      (count + count * length (filter (fun t => match t with
                                                 | None => true
                                                 | Some _ => false
                                                 end) (turns side)))%nat /\
    net_turn (turns calls) = Z.of_nat count * net_turn (turns side).
Proof.
  intros H. induction count as [| count (rest & R & F & T & N)].
  - exists []. cbn. repeat split.
  - eexists. cbn [draw_sides]. rewrite H, R. split; [reflexivity |].
    rewrite !forwards_app, !turns_app, F. cbn [forwards turns app repeat concat].
    split; [reflexivity |].
    rewrite filter_app, length_app, net_turn_app. cbn [filter length net_turn].
    rewrite T, N. split; lia.
Qed.

Lemma whole_degree_turns (ts : list (option Z)) :
  Forall (fun t => t = Some 60 \/ t = Some (-120)) ts ->
  length (filter (fun t => match t with None => true | Some _ => false end) ts)
    = 0%nat.
Proof. induction 1 as [| t ts [-> | ->] _ IH]; cbn; auto. Qed.


(** A side leaves the heading of the turtle as it found it: whenever
    [fractal_side] returns, its turns are [4 ^ level - 1] turns of 60
    degrees to the left or 120 to the right, and they sum to zero. *)
Theorem fractal_side_heading (fuel : nat) (size : number float) (level : Z)
  (calls : list (command float)) :
  fractal_side truediv fuel size level = Some calls ->
  Forall (fun t => t = Some 60 \/ t = Some (-120)) (turns calls) /\
  S (length (turns calls)) = (4 ^ Z.to_nat level)%nat /\
  net_turn (turns calls) = 0.
Proof.
  intros H. destruct (fractal_side_some _ _ _ _ H) as [_ ->].
  apply turns_koch.
Qed.


(** [draw_shape] with no side raises [ZeroDivisionError] at
    [360 / n_sides], before anything is drawn; with a negative number of
    sides it draws nothing and returns, whatever the level. *)
Theorem draw_shape_degenerate (fuel : nat) (side_len : number float) (level : Z) :
  draw_shape truediv fuel 0 side_len level = ZeroDivisionError /\
  forall n_sides, n_sides < 0 ->
    draw_shape truediv fuel n_sides side_len level = Drawn [].
Proof.
  split; [reflexivity |].
  intros n_sides H. unfold draw_shape.
  destruct (Z.eqb_spec n_sides 0) as [E | _]; [lia |].
  replace (Z.to_nat n_sides) with 0%nat by lia. reflexivity.
Qed.


End FractalProperties.


Lemma fractal_side_heading_witness :
  net_turn (turns (koch (fun _ _ : number unit => tt) 1 (Int 90))) = 0.
Proof.
  apply (fractal_side_heading unit (fun _ _ => tt) 2 (Int 90) 1
           (koch (fun _ _ : number unit => tt) 1 (Int 90)) eq_refl).
Defined.


Lemma draw_shape_degenerate_witness :
  draw_shape (fun _ _ : number unit => tt) 5 (-4) (Int 90) 1 = Drawn [].
Proof.
  apply (proj2 (draw_shape_degenerate unit (fun _ _ => tt) 5 (Int 90) 1)). lia.
Defined.

